(** * A shallow embedding of the 40-card casino engine (casino.py)

    The engine is a Python class [Game] whose methods mutate the object in
    place and may raise.  Methods are embedded as computations in a small
    state-and-exception monad [M] over the record [Game]; the state that a
    raising call leaves behind is part of the result, as it is in Python.

    Python integers are [Z]; list indices follow Python's rules (a negative
    index counts from the end, anything else outside the list raises
    IndexError, [None] used as an index raises TypeError). *)

From Stdlib Require Import ZArith.
From stdpp Require Import prelude strings pretty gmap.

Local Open Scope Z_scope.

(** ** Data model *)

Definition SUITS : list string := ["S"; "H"; "D"; "C"].

Record Card := mkCard { value : Z; suit : string }.

#[global] Instance Card_eq_dec : EqDecision Card.
Proof. solve_decision. Defined.

(** [Build.total] holds whatever [Action.target_total] held, which is an
    [Optional[int]]. *)
Record Build := mkBuild { cards : list Card; total : option Z }.

Record Player := mkPlayer {
  name : string;
  hand : list Card;
  captured : list Card
}.

Record Action := mkAction {
  kind : string;
  hand_index : option Z;
  table_index : option Z;
  build_index : option Z;
  target_total : option Z;
  steal_from : option Z
}.

Record Game := mkGame {
  player_count : Z;
  players : list Player;
  table : list Card;
  builds : list Build;
  stock : list Card;
  last_capturer : option Z;
  active_player : Z
}.

Definition set_hand (h : list Card) (p : Player) : Player :=
  mkPlayer (name p) h (captured p).
Definition set_captured (c : list Card) (p : Player) : Player :=
  mkPlayer (name p) (hand p) c.

Definition set_players (ps : list Player) (g : Game) : Game :=
  mkGame (player_count g) ps (table g) (builds g) (stock g)
         (last_capturer g) (active_player g).
Definition set_table (t : list Card) (g : Game) : Game :=
  mkGame (player_count g) (players g) t (builds g) (stock g)
         (last_capturer g) (active_player g).
Definition set_builds (bs : list Build) (g : Game) : Game :=
  mkGame (player_count g) (players g) (table g) bs (stock g)
         (last_capturer g) (active_player g).
Definition set_stock (s : list Card) (g : Game) : Game :=
  mkGame (player_count g) (players g) (table g) (builds g) s
         (last_capturer g) (active_player g).
Definition set_last_capturer (c : option Z) (g : Game) : Game :=
  mkGame (player_count g) (players g) (table g) (builds g) (stock g)
         c (active_player g).
Definition set_active_player (a : Z) (g : Game) : Game :=
  mkGame (player_count g) (players g) (table g) (builds g) (stock g)
         (last_capturer g) a.

(** ** Exceptions and the monad *)

(** [DanglingRef] is not a Python exception: it marks the use of a player
    reference that does not point into [players].  References are only
    produced by [players_getitem] and [player_refs] and the list never
    changes length, so it is never raised (see [apply_action_never_dangles];
    the lemmas on the other operations give the result of every call). *)
Inductive exn :=
  | IndexError
  | TypeError
  | ValueError (msg : string)
  | ZeroDivisionError
  | DanglingRef.

Inductive result (A : Type) :=
  | Ok (a : A)
  | Raise (e : exn).
Arguments Ok {A} a.
Arguments Raise {A} e.

Definition M (A : Type) : Type := Game → result A * Game.

#[global] Instance M_ret : MRet M := λ A a g, (Ok a, g).
#[global] Instance M_bind : MBind M := λ A B f m g,
  match m g with
  | (Ok a, g') => f a g'
  | (Raise e, g') => (Raise e, g')
  end.

Definition raise {A} (e : exn) : M A := λ g, (Raise e, g).
Definition lift {A} (r : result A) : M A := λ g, (r, g).
Definition gets {A} (f : Game → A) : M A := λ g, (Ok (f g), g).
Definition modify (f : Game → Game) : M unit := λ g, (Ok tt, f g).

(** ** Python lists *)

(** Position denoted by index [i] in a list of length [len]. *)
Definition py_index (len : nat) (i : Z) : option nat :=
  let j := if bool_decide (i < 0) then i + Z.of_nat len else i in
  if bool_decide (0 ≤ j < Z.of_nat len) then Some (Z.to_nat j) else None.

(** [l[i]] *)
Definition list_getitem {A} (l : list A) (i : option Z) : result A :=
  match i with
  | None => Raise TypeError
  | Some i =>
      match py_index (length l) i ≫= (l !!.) with
      | Some x => Ok x
      | None => Raise IndexError
      end
  end.

(** [l.pop(i)]: the element and what is left of the list. *)
Definition list_pop {A} (l : list A) (i : option Z) : result (A * list A) :=
  match i with
  | None => Raise TypeError
  | Some i =>
      match py_index (length l) i with
      | Some k =>
          match l !! k with
          | Some x => Ok (x, delete k l)
          | None => Raise IndexError
          end
      | None => Raise IndexError
      end
  end.

(** [l.remove(x)]: drops the first element equal to [x]. *)
Fixpoint list_remove `{EqDecision A} (x : A) (l : list A) : option (list A) :=
  match l with
  | [] => None
  | y :: l' => if decide (y = x) then Some l' else (y ::.) <$> list_remove x l'
  end.

(** [enumerate(l)] *)
Definition enumerate {A} (l : list A) : list (Z * A) :=
  imap (λ i x, (Z.of_nat i, x)) l.

(** ** Access to the game object *)

(** [self.players[i]], as a reference (the position in [players]). *)
Definition players_getitem (i : option Z) : M nat := λ g,
  match i with
  | None => (Raise TypeError, g)
  | Some i =>
      match py_index (length (players g)) i with
      | Some r => (Ok r, g)
      | None => (Raise IndexError, g)
      end
  end.

(** The references [for player in self.players] runs through. *)
Definition player_refs : M (list nat) :=
  gets (λ g, seq 0 (length (players g))).

Definition deref (r : nat) : M Player := λ g,
  match players g !! r with
  | Some p => (Ok p, g)
  | None => (Raise DanglingRef, g)
  end.

Definition assign (r : nat) (p : Player) : M unit :=
  modify (λ g, set_players (<[r := p]> (players g)) g).

Definition hand_pop (r : nat) (i : option Z) : M Card :=
  p ← deref r;
  '(card, rest) ← lift (list_pop (hand p) i);
  assign r (set_hand rest p);;
  mret card.

Definition hand_extend (r : nat) (cs : list Card) : M unit :=
  p ← deref r; assign r (set_hand (hand p ++ cs) p).

Definition hand_remove (r : nat) (c : Card) : M unit :=
  p ← deref r;
  match list_remove c (hand p) with
  | Some rest => assign r (set_hand rest p)
  | None => raise (ValueError "list.remove(x): x not in list")
  end.

Definition captured_pop (r : nat) : M Card :=
  p ← deref r;
  '(card, rest) ← lift (list_pop (captured p) (Some (-1)));
  assign r (set_captured rest p);;
  mret card.

Definition captured_extend (r : nat) (cs : list Card) : M unit :=
  p ← deref r; assign r (set_captured (captured p ++ cs) p).

Definition table_pop (i : option Z) : M Card :=
  t ← gets table;
  '(card, rest) ← lift (list_pop t i);
  modify (set_table rest);;
  mret card.

Definition table_append (c : Card) : M unit :=
  modify (λ g, set_table (table g ++ [c]) g).

Definition builds_pop (i : option Z) : M Build :=
  bs ← gets builds;
  '(b, rest) ← lift (list_pop bs i);
  modify (set_builds rest);;
  mret b.

Definition builds_append (b : Build) : M unit :=
  modify (λ g, set_builds (builds g ++ [b]) g).

Definition table_setitem (i : Z) (c : Card) : M unit :=
  t ← gets table;
  match py_index (length t) i with
  | Some k => modify (set_table (<[k := c]> t))
  | None => raise IndexError
  end.

Definition hand_append (r : nat) (c : Card) : M unit := hand_extend r [c].
Definition captured_append (r : nat) (c : Card) : M unit := captured_extend r [c].

(** ** The engine *)

(** [[Card(value, suit) for suit in SUITS for value in range(1, 11)]] *)
Definition full_deck : list Card :=
  suit ← SUITS; value ← seqZ 1 10; [mkCard value suit].

Definition is_three_of_hearts (card : Card) : bool :=
  bool_decide (value card = 3) && bool_decide (suit card = "H").

(** The loop over [self.players] of [_resolve_three_of_hearts_exchange]; the
    inner loop over the hand stops at the first match, which is [find]. *)
Fixpoint exchange_scan (starter : Card) (rs : list nat) : M unit :=
  match rs with
  | [] => mret tt
  | player :: rs' =>
      p ← deref player;
      match find is_three_of_hearts (hand p) with
      | Some card =>
          hand_remove player card;;
          hand_append player starter;;
          table_setitem 0 card
      | None => exchange_scan starter rs'
      end
  end.

Definition _resolve_three_of_hearts_exchange : M unit :=
  t ← gets table;
  match t with
  | [] => mret tt
  | starter :: _ => rs ← player_refs; exchange_scan starter rs
  end.

(** [for player in self.players: player.hand.extend(deck[:n]); del deck[:n]],
    returning what is left of the local list [deck]. *)
Fixpoint deal (n : nat) (rs : list nat) (deck : list Card) : M (list Card) :=
  match rs with
  | [] => mret deck
  | player :: rs' =>
      hand_extend player (take n deck);;
      deal n rs' (drop n deck)
  end.

(** The same loop of [_deal_second_round], which deals from [self.stock]. *)
Fixpoint deal_from_stock (rs : list nat) : M unit :=
  match rs with
  | [] => mret tt
  | player :: rs' =>
      s ← gets stock;
      hand_extend player (take 10 s);;
      modify (set_stock (drop 10 s));;
      deal_from_stock rs'
  end.

Definition _deal_second_round : M unit :=
  n ← gets player_count;
  s ← gets stock;
  if bool_decide (n ≠ 2) || bool_decide (s = []) then mret tt
  else
    ps ← gets players;
    if existsb (λ player, negb (bool_decide (hand player = []))) ps then mret tt
    else rs ← player_refs; deal_from_stock rs.

Definition advance_turn : M unit :=
  a ← gets active_player;
  n ← gets player_count;
  if bool_decide (n = 0) then raise ZeroDivisionError
  else
    modify (set_active_player ((a + 1) `mod` n));;
    _deal_second_round.

Definition throw_action (idx : Z) : Action :=
  mkAction "throw" (Some idx) None None None None.
Definition capture_action (idx table_idx : Z) : Action :=
  mkAction "capture" (Some idx) (Some table_idx) None None None.
Definition capture_build_action (idx build_idx : Z) : Action :=
  mkAction "capture_build" (Some idx) None (Some build_idx) None None.
Definition build_action (idx table_idx target : Z) : Action :=
  mkAction "build" (Some idx) (Some table_idx) None (Some target) None.
Definition steal_build_action (table_idx target opponent_index : Z) : Action :=
  mkAction "steal_build" None (Some table_idx) None (Some target)
           (Some opponent_index).

(** [any(hand_card.value == target_total for hand_card in cs)] *)
Definition any_value (target_total : Z) (cs : list Card) : bool :=
  existsb (λ hand_card, bool_decide (value hand_card = target_total)) cs.

(** The body of the loop over the acting hand. *)
Definition card_moves (g : Game) (player : Player) (idx : Z) (card : Card)
  : list Action :=
  [throw_action idx]
  ++ ('(table_idx, table_card) ← enumerate (table g);
      if bool_decide (value card = value table_card)
      then [capture_action idx table_idx] else [])
  ++ ('(build_idx, build) ← enumerate (builds g);
      if bool_decide (Some (value card) = total build)
      then [capture_build_action idx build_idx] else [])
  ++ ('(table_idx, table_card) ← enumerate (table g);
      let target_total := value card + value table_card in
      if any_value target_total
           (filter (λ hand_card, hand_card ≠ card) (hand player))
      then [build_action idx table_idx target_total] else []).

(** The body of the loop over the opponents; [last] is [captured[-1]] after
    the test [not opponent.captured]. *)
Definition steal_moves (g : Game) (player : Player) (player_index : Z)
    (opponent_index : Z) (opponent : Player) : list Action :=
  if bool_decide (opponent_index = player_index) then []
  else
    match last (captured opponent) with
    | None => []
    | Some top_card =>
        '(table_idx, table_card) ← enumerate (table g);
        let target_total := value top_card + value table_card in
        if any_value target_total (hand player)
        then [steal_build_action table_idx target_total opponent_index]
        else []
    end.

Definition legal_moves (g : Game) (player_index : Z) : result (list Action) :=
  match list_getitem (players g) (Some player_index) with
  | Raise e => Raise e
  | Ok player =>
      Ok (('(idx, card) ← enumerate (hand player);
           card_moves g player idx card)
          ++ ('(opponent_index, opponent) ← enumerate (players g);
              steal_moves g player player_index opponent_index opponent))
  end.

Definition apply_action (player_index : Z) (action : Action) : M unit :=
  player ← players_getitem (Some player_index);
  if bool_decide (kind action = "throw") then
    card ← hand_pop player (hand_index action);
    table_append card
  else if bool_decide (kind action = "capture") then
    card ← hand_pop player (hand_index action);
    table_card ← table_pop (table_index action);
    captured_extend player [card; table_card];;
    modify (set_last_capturer (Some player_index))
  else if bool_decide (kind action = "capture_build") then
    card ← hand_pop player (hand_index action);
    build ← builds_pop (build_index action);
    captured_append player card;;
    captured_extend player (cards build);;
    modify (set_last_capturer (Some player_index))
  else if bool_decide (kind action = "build") then
    card ← hand_pop player (hand_index action);
    table_card ← table_pop (table_index action);
    builds_append (mkBuild [card; table_card] (target_total action))
  else if bool_decide (kind action = "steal_build") then
    opponent ← players_getitem (steal_from action);
    stolen ← captured_pop opponent;
    table_card ← table_pop (table_index action);
    builds_append (mkBuild [stolen; table_card] (target_total action))
  else raise (ValueError ("Unknown action: " +:+ kind action)).

Fixpoint collect_builds (player : nat) (bs : list Build) : M unit :=
  match bs with
  | [] => mret tt
  | build :: bs' =>
      captured_extend player (cards build);;
      collect_builds player bs'
  end.

Definition collect_remaining_table : M unit :=
  lc ← gets last_capturer;
  match lc with
  | None => mret tt
  | Some i =>
      player ← players_getitem (Some i);
      t ← gets table;
      captured_extend player t;;
      modify (set_table []);;
      bs ← gets builds;
      collect_builds player bs;;
      modify (set_builds [])
  end.

Definition is_over (g : Game) : bool :=
  forallb (λ player, bool_decide (hand player = [])) (players g)
  && bool_decide (stock g = []).

(** [sum(1 for card in pile if cond(card))] *)
Definition count_cards (cond : Card → bool) (pile : list Card) : Z :=
  foldr Z.add 0 ((λ _, 1) <$> filter (λ card, cond card = true) pile).

Definition pile_score (pile : list Card) : Z :=
  let aces := count_cards (λ card, bool_decide (value card = 1)) pile in
  let two_spades :=
    count_cards (λ card, bool_decide (value card = 2)
                         && bool_decide (suit card = "S")) pile in
  let ten_diamonds :=
    count_cards (λ card, bool_decide (value card = 10)
                         && bool_decide (suit card = "D")) pile in
  let spades := count_cards (λ card, bool_decide (suit card = "S")) pile in
  let spade_points :=
    if bool_decide (6 ≤ spades) then 2
    else if bool_decide (spades = 5) then 1 else 0 in
  let total_cards_bonus :=
    if bool_decide (21 ≤ Z.of_nat (length pile)) then 1 else 0 in
  aces + two_spades + ten_diamonds + spade_points + total_cards_bonus.

Definition score (g : Game) : list Z :=
  (λ player, pile_score (captured player)) <$> players g.

(** The body of the loop of [simulate_game] (and of the two user
    interfaces): a pass when [legal_moves] is empty, else the move that
    [choice] ([rng.choice], or the user) picks, then the turn advances. *)
Definition simulate_turn (choice : list Action → Action) : M unit :=
  p ← gets active_player;
  moves ← (λ g, (legal_moves g p, g));
  match moves with
  | [] => advance_turn
  | _ :: _ => apply_action p (choice moves);; advance_turn
  end.

(** The object [__init__] hands to [_setup]. *)
Definition blank_game (player_count : Z) : Game :=
  let players :=
    (λ i, mkPlayer ("P" +:+ pretty (i + 1)) [] []) <$> seqZ 0 player_count in
  mkGame player_count players [] [] [] None 0.

(** The three-player branch of [_setup] up to the call of
    [_resolve_three_of_hearts_exchange]: thirteen cards each, and the last
    card of the deck onto the table. *)
Definition deal_three (deck : list Card) : M unit :=
  rs ← player_refs;
  deck ← deal 13 rs deck;
  '(starter, _) ← lift (list_pop deck (Some (-1)));
  table_append starter.

Section Setup.

(** [rng.shuffle]: the order in which it leaves the deck. *)
Variable shuffle : list Card → list Card.

(** [Game._setup]: the deck is built and shuffled, then dealt. *)
Definition _setup : M unit :=
  let deck := shuffle full_deck in
  n ← gets player_count;
  if bool_decide (n = 2) then
    rs ← player_refs;
    deck ← deal 10 rs deck;
    modify (set_stock deck)
  else
    deal_three deck;;
    _resolve_three_of_hearts_exchange;;
    modify (set_stock []).

(** [Game.__init__] *)
Definition new_game (player_count : Z) : result Game :=
  if bool_decide (player_count = 2 ∨ player_count = 3) then
    match _setup (blank_game player_count) with
    | (Ok _, g) => Ok g
    | (Raise e, _) => Raise e
    end
  else Raise (ValueError "Only 2 or 3 players are supported.").

End Setup.

(** ** Labels, text and drivers *)

(** A dict display or comprehension: the pairs are entered in order, and a
    key entered again takes the later value. *)
Definition py_dict `{Countable K} {V} (kvs : list (K * V)) : gmap K V :=
  foldl (λ m kv, <[kv.1 := kv.2]> m) ∅ kvs.

Definition VALUE_LABELS_items : list (Z * string) :=
  [(1, "A"); (2, "2"); (3, "3"); (4, "4"); (5, "5");
   (6, "6"); (7, "7"); (8, "8"); (9, "9"); (10, "10")].

Definition VALUE_LABELS : gmap Z string := py_dict VALUE_LABELS_items.

(** [{label: value for value, label in VALUE_LABELS.items()}] *)
Definition LABEL_VALUES : gmap string Z :=
  py_dict ((λ '(value, label), (label, value)) <$> VALUE_LABELS_items).

(** [Card.label]; [None] stands for the KeyError of [VALUE_LABELS[value]]. *)
Definition label (card : Card) : option string :=
  rank ← VALUE_LABELS !! value card; Some (rank +:+ suit card).

(** [sep.join(l)] *)
Fixpoint str_join (sep : string) (l : list string) : string :=
  match l with
  | [] => ""
  | [x] => x
  | x :: l' => x +:+ sep +:+ str_join sep l'
  end.

(** [s or d] on strings: the empty string is false. *)
Definition str_or (s d : string) : string := if decide (s = "") then d else s.

(** [str(t)] for an [Optional[int]], as an f-string formats it. *)
Definition str_optional_int (t : option Z) : string :=
  match t with
  | Some z => pretty z
  | None => "None"
  end.

(** [Game.table_state]; [None] stands for the KeyError of a label. *)
Definition table_state (g : Game) : option string :=
  labels ← mapM label (table g);
  let loose := str_or (str_join " " labels) "(none)" in
  texts ← mapM (λ build,
                  labels ← mapM label (cards build);
                  Some (str_optional_int (total build) +:+ ":"
                        +:+ str_join "+" labels))
               (builds g);
  let builds := str_or (str_join ", " texts) "(none)" in
  Some ("Loose: " +:+ loose +:+ " | Builds: " +:+ builds).

(** [Game.current_player] *)
Definition current_player (g : Game) : result Player :=
  list_getitem (players g) (Some (active_player g)).

(** [simulate_game] (and [auto_simulate] of the web page, which is the same
    loop): turns until [is_over], then the final sweep.  The loop runs for
    at most [fuel] turns; the result tells whether it came to its end.
    [choice k] is what [rng.choice] does when [k] turns of fuel are left. *)
Fixpoint simulate_loop (fuel : nat) (choice : nat → list Action → Action)
  : M bool :=
  match fuel with
  | O => mret false
  | S fuel' =>
      over ← gets is_over;
      if over : bool then mret true
      else simulate_turn (choice fuel');; simulate_loop fuel' choice
  end.

Definition simulate_game (fuel : nat) (choice : nat → list Action → Action)
  : M bool :=
  ended ← simulate_loop fuel choice;
  if ended : bool then collect_remaining_table;; mret true else mret false.

(** [step_random_move] of the web page: nothing once the game is over, else
    one turn. *)
Definition step_random_move (choice : list Action → Action) : M unit :=
  over ← gets is_over;
  if over : bool then mret tt else simulate_turn choice.

(** ** Vocabulary of the properties *)

(** Every hand, the loose table cards, every build's cards, every captured
    pile and the stock, as one list. *)
Definition all_cards (g : Game) : list Card :=
  concat (hand <$> players g) ++ table g ++ concat (cards <$> builds g)
  ++ concat (captured <$> players g) ++ stock g.

Definition deck_conserved (g : Game) : Prop := all_cards g ≡ₚ full_deck.

(** [g'] is [g] with the same number of players, holding other cards. *)
Definition players_changed (g g' : Game) : Prop :=
  ∃ ps, g' = set_players ps g ∧ length ps = length (players g).

(** Player [r] exists and holds no three of hearts. *)
Definition holds_none (g : Game) (r : nat) : Prop :=
  ∃ p, players g !! r = Some p ∧ find is_three_of_hearts (hand p) = None.

(** Player [i], with the cards [p], is the first in the order of [players]
    to hold the three of hearts. *)
Definition first_holder (g : Game) (i : nat) (p : Player) : Prop :=
  players g !! i = Some p ∧ mkCard 3 "H" ∈ hand p
  ∧ ∀ j q, (j < i)%nat → players g !! j = Some q → mkCard 3 "H" ∉ hand q.

(** The state of a three-player game after dealing, before the exchange. *)
Definition dealt_three (shuffle : list Card → list Card) : Game :=
  snd (deal_three (shuffle full_deck) (blank_game 3)).

(** The actions offered to [player], the player at [player_index]. *)
Inductive legal (g : Game) (player_index : Z) (player : Player) : Action → Prop :=
  | legal_throw i card :
      hand player !! i = Some card →
      legal g player_index player (throw_action (Z.of_nat i))
  | legal_capture i card j table_card :
      hand player !! i = Some card → table g !! j = Some table_card →
      value card = value table_card →
      legal g player_index player (capture_action (Z.of_nat i) (Z.of_nat j))
  | legal_capture_build i card j build :
      hand player !! i = Some card → builds g !! j = Some build →
      total build = Some (value card) →
      legal g player_index player
        (capture_build_action (Z.of_nat i) (Z.of_nat j))
  | legal_build i card j table_card other :
      hand player !! i = Some card → table g !! j = Some table_card →
      other ∈ hand player → other ≠ card →
      value other = value card + value table_card →
      legal g player_index player
        (build_action (Z.of_nat i) (Z.of_nat j) (value card + value table_card))
  | legal_steal_build o opponent top_card j table_card hand_card :
      players g !! o = Some opponent → Z.of_nat o ≠ player_index →
      last (captured opponent) = Some top_card →
      table g !! j = Some table_card →
      hand_card ∈ hand player →
      value hand_card = value top_card + value table_card →
      legal g player_index player
        (steal_build_action (Z.of_nat j) (value top_card + value table_card)
           (Z.of_nat o)).

(** The seats of a game: how many players, whose turn. *)
Definition same_seats (g g' : Game) : Prop :=
  player_count g' = player_count g
  ∧ length (players g') = length (players g)
  ∧ active_player g' = active_player g.

(** What holds of every reachable state besides deck conservation: two or
    three players, as many as [player_count] says; [active_player] and
    [last_capturer] denote players. *)
Definition well_formed (g : Game) : Prop :=
  (player_count g = 2 ∨ player_count g = 3)
  ∧ Z.of_nat (length (players g)) = player_count g
  ∧ 0 ≤ active_player g < player_count g
  ∧ ∀ i, last_capturer g = Some i →
         is_Some (py_index (length (players g)) i).

(** The states a caller of the public operations can bring a game to: a
    new game (whose deck [shuffle] ordered), then in any order a call of
    [apply_action] that returns (every move out of [legal_moves] does, see
    [legal_moves_apply]), a turn advance, the final sweep.  No caller in the
    repository goes on after a call has raised. *)
Inductive reachable (shuffle : list Card → list Card) : Game → Prop :=
  | reach_new n g :
      new_game shuffle n = Ok g → reachable shuffle g
  | reach_apply g player_index a g' :
      reachable shuffle g →
      apply_action player_index a g = (Ok tt, g') →
      reachable shuffle g'
  | reach_advance g g' :
      reachable shuffle g → advance_turn g = (Ok tt, g') →
      reachable shuffle g'
  | reach_collect g g' :
      reachable shuffle g → collect_remaining_table g = (Ok tt, g') →
      reachable shuffle g'.

(** A three-player game dealt from the unshuffled deck: the first player
    held the three of hearts, which now lies on the table. *)
Definition three_player_opening : Game :=
  match new_game id 3 with
  | Ok g => g
  | Raise _ => blank_game 3
  end.

(** A two-player game dealt from the unshuffled deck. *)
Definition two_player_opening : Game :=
  match new_game id 2 with
  | Ok g => g
  | Raise _ => blank_game 2
  end.

(** The first player captures the three of hearts with the three of spades;
    then the second player throws the four of hearts. *)
Definition after_capture : Game :=
  snd (apply_action 0 (capture_action 2 0) three_player_opening).

Definition after_capture_and_throw : Game :=
  snd (apply_action 1 (throw_action 0) after_capture).

(** The first player builds 4 from the ace of spades and the three of
    hearts. *)
Definition after_build : Game :=
  snd (apply_action 0 (build_action 0 0 4) three_player_opening).

(** The player at position [r] of a sample game. *)
Definition player_at (g : Game) (r : nat) : Player :=
  default (mkPlayer "" [] []) (players g !! r).

(** A finished two-player game with the piles of the scoring examples (the
    cards left out were never captured). *)
Definition scored_piles : Game :=
  mkGame 2
    [mkPlayer "P1" []
       [mkCard 1 "S"; mkCard 1 "H"; mkCard 2 "S"; mkCard 10 "D"];
     mkPlayer "P2" []
       (((λ v, mkCard v "S") <$> seqZ 3 6)
        ++ ((λ v, mkCard v "H") <$> seqZ 2 9)
        ++ ((λ v, mkCard v "D") <$> seqZ 2 7))]
    [] [] [] (Some 0) 0.

(** The scoring rules as the specification words them: how many cards of a
    pile satisfy [P], and the five additive terms. *)
Definition number_of (P : Card → Prop) `{∀ c, Decision (P c)}
    (pile : list Card) : Z :=
  Z.of_nat (length (filter P pile)).

Definition rule_score (pile : list Card) : Z :=
  let spades := number_of (λ card, suit card = "S") pile in
  number_of (λ card, value card = 1) pile
  + (if bool_decide (mkCard 2 "S" ∈ pile) then 1 else 0)
  + (if bool_decide (mkCard 10 "D" ∈ pile) then 1 else 0)
  + (if bool_decide (6 ≤ spades) then 2
     else if bool_decide (spades = 5) then 1 else 0)
  + (if bool_decide (21 ≤ length pile)%nat then 1 else 0).

Definition known_kinds : list string :=
  ["throw"; "capture"; "capture_build"; "build"; "steal_build"].

(** [i] is [None], or an index outside a list of length [len]. *)
Definition no_position (len : nat) (i : option Z) : Prop :=
  i ≫= py_index len = None.

(** The action is refused before anything is taken off a list: the acting
    player does not exist, the kind is not one of the five, or the first
    operand the kind takes is missing (the hand card for the four kinds that
    play one; for [steal_build] the player named by [steal_from], or a last
    card on that player's pile). *)
Inductive refused_at_once (g : Game) (player_index : Z) (a : Action) : Prop :=
  | refused_player :
      py_index (length (players g)) player_index = None →
      refused_at_once g player_index a
  | refused_kind :
      kind a ∉ known_kinds → refused_at_once g player_index a
  | refused_hand_index r p :
      py_index (length (players g)) player_index = Some r →
      players g !! r = Some p →
      kind a ∈ ["throw"; "capture"; "capture_build"; "build"] →
      no_position (length (hand p)) (hand_index a) →
      refused_at_once g player_index a
  | refused_steal_from :
      kind a = "steal_build" →
      no_position (length (players g)) (steal_from a) →
      refused_at_once g player_index a
  | refused_empty_pile sf o opponent :
      kind a = "steal_build" → steal_from a = Some sf →
      py_index (length (players g)) sf = Some o →
      players g !! o = Some opponent → captured opponent = [] →
      refused_at_once g player_index a.

(** How many cards the hands hold together. *)
Definition hands_total (g : Game) : nat :=
  length (concat (hand <$> players g)).

(** The captured piles, in the order of [players]. *)
Definition piles (g : Game) : list (list Card) := captured <$> players g.

(** The hands, in the order of [players]. *)
Definition hands (g : Game) : list (list Card) := hand <$> players g.

(** The hand of the player whose turn comes [k] turns after the present
    one. *)
Definition hand_in (g : Game) (k : Z) : list Card :=
  match players g
        !! Z.to_nat ((active_player g + k) `mod` player_count g) with
  | Some p => hand p
  | None => []
  end.

(** How many turns pass before a player who holds a card is to play (at
    most two, there being at most three players). *)
Definition waiting (g : Game) : nat :=
  if bool_decide (hand_in g 0 ≠ []) then 0
  else if bool_decide (hand_in g 1 ≠ []) then 1 else 2.

(** What every turn of the simulation makes smaller: cards still to be
    played count twice, loose table cards once, and the wait breaks ties. *)
Definition turn_measure (g : Game) : nat :=
  3 * (2 * (hands_total g + length (stock g)) + length (table g)) + waiting g.

(** The stock is only there while some hand waits for it to be dealt: what
    holds between two turns, with a second deal behind every turn advance. *)
Definition stock_in_order (g : Game) : Prop :=
  (player_count g ≠ 2 → stock g = [])
  ∧ (Forall (λ p, hand p = []) (players g) → stock g = []).

(** ** Reasoning about computations in [M] *)

Lemma bind_Ok {A B} (m : M A) (f : A → M B) g b g' :
  (m ≫= f) g = (Ok b, g') ↔ ∃ a g1, m g = (Ok a, g1) ∧ f a g1 = (Ok b, g').
Proof.
  unfold mbind, M_bind. split.
  - destruct (m g) as [[a|e] g1]; [eauto | discriminate].
  - intros (a & g1 & -> & Hf). exact Hf.
Qed.

Lemma bind_Raise {A B} (m : M A) (f : A → M B) g e g' :
  (m ≫= f) g = (Raise e, g') ↔
  m g = (Raise e, g') ∨ ∃ a g1, m g = (Ok a, g1) ∧ f a g1 = (Raise e, g').
Proof.
  unfold mbind, M_bind. split.
  - destruct (m g) as [[a|e1] g1]; [eauto | left; congruence].
  - intros [-> | (a & g1 & -> & Hf)]; done.
Qed.

Lemma bind_step {A B} (m : M A) (f : A → M B) g a g1 :
  m g = (Ok a, g1) → (m ≫= f) g = f a g1.
Proof. unfold mbind, M_bind. by intros ->. Qed.

Lemma py_index_Some len i k :
  py_index len i = Some k ↔
  (k < len)%nat ∧ (i = Z.of_nat k ∨ i = Z.of_nat k - Z.of_nat len).
Proof.
  unfold py_index. split.
  - intros Hk. repeat case_bool_decide; simplify_eq; split; lia.
  - intros [Hlt [-> | ->]]; repeat case_bool_decide; try lia; f_equal; lia.
Qed.

Lemma py_index_of_nat len k : (k < len)%nat → py_index len (Z.of_nat k) = Some k.
Proof. intros. apply py_index_Some. auto. Qed.

Lemma py_index_last len : (0 < len)%nat → py_index len (-1) = Some (pred len).
Proof. intros. apply py_index_Some. lia. Qed.

Lemma list_pop_Ok {A} (l : list A) i x rest :
  list_pop l i = Ok (x, rest) ↔
  ∃ iz k, i = Some iz ∧ py_index (length l) iz = Some k
          ∧ l !! k = Some x ∧ rest = delete k l.
Proof.
  unfold list_pop. split.
  - intros H. repeat case_match; simplify_eq. eauto 10.
  - intros (iz & k & -> & -> & -> & ->). done.
Qed.

Lemma list_pop_last {A} (l : list A) x :
  list_pop (l ++ [x]) (Some (-1)) = Ok (x, l).
Proof.
  apply list_pop_Ok. exists (-1), (length l). split; [done|].
  split_and!.
  - rewrite py_index_last; rewrite length_app; simpl; [f_equal|]; lia.
  - by rewrite lookup_app_r, Nat.sub_diag.
  - rewrite delete_take_drop, take_app_length.
    rewrite drop_ge; [by rewrite app_nil_r|]. rewrite length_app. simpl. lia.
Qed.

Lemma list_pop_last_Ok {A} (l : list A) x rest :
  list_pop l (Some (-1)) = Ok (x, rest) ↔ l = rest ++ [x].
Proof.
  split; [|intros ->; apply list_pop_last].
  destruct (decide (l = [])) as [->|Hne]; [done|].
  apply last_is_Some in Hne as [y Hy]. apply last_Some in Hy as [l' ->].
  rewrite list_pop_last. congruence.
Qed.

Lemma elem_of_enumerate {A} (l : list A) z x :
  (z, x) ∈ enumerate l ↔ ∃ i, z = Z.of_nat i ∧ l !! i = Some x.
Proof.
  unfold enumerate. rewrite elem_of_lookup_imap. split.
  - intros (i & y & ? & ?). simplify_eq. eauto.
  - intros (i & -> & ?). eauto.
Qed.

Lemma list_remove_Some `{EqDecision A} (x : A) l rest :
  list_remove x l = Some rest → l ≡ₚ x :: rest ∧ length l = S (length rest).
Proof.
  revert rest. induction l as [|y l IH]; intros rest; simpl; [done|].
  case_decide as Hy.
  - intros [= <-]. by subst.
  - destruct (list_remove x l) as [r|]; [|done]. intros [= <-].
    destruct (IH r eq_refl) as [HP Hl]. split; [|simpl; lia].
    rewrite HP. apply Permutation_swap.
Qed.

Lemma list_remove_elem_of `{EqDecision A} (x : A) l :
  x ∈ l → is_Some (list_remove x l).
Proof.
  induction 1 as [|y z l ? IH]; simpl.
  - rewrite decide_True; eauto.
  - case_decide; [eauto|]. destruct IH as [r ->]. simpl. eauto.
Qed.

(** Unfolds the primitive accessors down to matches on the state. *)
Ltac munfold :=
  unfold hand_pop, hand_extend, hand_append, hand_remove, captured_pop,
    captured_extend, captured_append, table_pop, table_append, table_setitem,
    builds_pop, builds_append, players_getitem, player_refs, deref, assign,
    lift, gets, modify, raise, mbind, M_bind, mret, M_ret in *.

(** ** What each accessor does *)

Lemma players_getitem_Ok i g r g' :
  players_getitem i g = (Ok r, g') ↔
  ∃ iz, i = Some iz ∧ py_index (length (players g)) iz = Some r ∧ g' = g.
Proof.
  munfold. split.
  - intros H. repeat case_match; simplify_eq. eauto.
  - intros (iz & -> & -> & ->). done.
Qed.

Lemma hand_pop_Ok r i g c g' :
  hand_pop r i g = (Ok c, g') ↔
  ∃ p iz k, players g !! r = Some p ∧ i = Some iz
    ∧ py_index (length (hand p)) iz = Some k ∧ hand p !! k = Some c
    ∧ g' = set_players (<[r := set_hand (delete k (hand p)) p]> (players g)) g.
Proof.
  munfold. split.
  - intros H. destruct (players g !! r) as [p|] eqn:Hp; [|done].
    destruct (list_pop (hand p) i) as [[x rest]|] eqn:Hpop; [|done].
    apply list_pop_Ok in Hpop as (iz & k & -> & ? & ? & ->).
    simplify_eq. eauto 10.
  - intros (p & iz & k & -> & -> & Hk & Hc & ->).
    unfold list_pop. by rewrite Hk, Hc.
Qed.

Lemma captured_pop_Ok r g c g' :
  captured_pop r g = (Ok c, g') ↔
  ∃ p rest, players g !! r = Some p ∧ captured p = rest ++ [c]
    ∧ g' = set_players (<[r := set_captured rest p]> (players g)) g.
Proof.
  munfold. split.
  - intros H. destruct (players g !! r) as [p|] eqn:Hp; [|done].
    destruct (list_pop (captured p) _) as [[x rest]|] eqn:Hpop; [|done].
    apply list_pop_last_Ok in Hpop. simplify_eq. eauto.
  - intros (p & rest & -> & Hc & ->). by rewrite Hc, list_pop_last.
Qed.

Lemma captured_extend_Ok r cs g u g' :
  captured_extend r cs g = (Ok u, g') ↔
  ∃ p, players g !! r = Some p
    ∧ g' = set_players (<[r := set_captured (captured p ++ cs) p]> (players g)) g.
Proof.
  munfold. split.
  - intros H. destruct (players g !! r) as [p|] eqn:Hp; simplify_eq. eauto.
  - intros (p & -> & ->). by destruct u.
Qed.

Lemma hand_extend_Ok r cs g u g' :
  hand_extend r cs g = (Ok u, g') ↔
  ∃ p, players g !! r = Some p
    ∧ g' = set_players (<[r := set_hand (hand p ++ cs) p]> (players g)) g.
Proof.
  munfold. split.
  - intros H. destruct (players g !! r) as [p|] eqn:Hp; simplify_eq. eauto.
  - intros (p & -> & ->). by destruct u.
Qed.

Lemma hand_remove_Ok r c g u g' :
  hand_remove r c g = (Ok u, g') ↔
  ∃ p rest, players g !! r = Some p ∧ list_remove c (hand p) = Some rest
    ∧ g' = set_players (<[r := set_hand rest p]> (players g)) g.
Proof.
  munfold. split.
  - intros H. destruct (players g !! r) as [p|] eqn:Hp; [|done].
    destruct (list_remove c (hand p)) as [rest|] eqn:Hr; simplify_eq. eauto.
  - intros (p & rest & -> & -> & ->). by destruct u.
Qed.

Lemma table_pop_Ok i g c g' :
  table_pop i g = (Ok c, g') ↔
  ∃ iz k, i = Some iz ∧ py_index (length (table g)) iz = Some k
    ∧ table g !! k = Some c ∧ g' = set_table (delete k (table g)) g.
Proof.
  munfold. split.
  - intros H. destruct (list_pop (table g) i) as [[x rest]|] eqn:Hpop; [|done].
    apply list_pop_Ok in Hpop as (iz & k & -> & ? & ? & ->).
    simplify_eq. eauto 10.
  - intros (iz & k & -> & Hk & Hc & ->). unfold list_pop. by rewrite Hk, Hc.
Qed.

Lemma builds_pop_Ok i g b g' :
  builds_pop i g = (Ok b, g') ↔
  ∃ iz k, i = Some iz ∧ py_index (length (builds g)) iz = Some k
    ∧ builds g !! k = Some b ∧ g' = set_builds (delete k (builds g)) g.
Proof.
  munfold. split.
  - intros H. destruct (list_pop (builds g) i) as [[x rest]|] eqn:Hpop; [|done].
    apply list_pop_Ok in Hpop as (iz & k & -> & ? & ? & ->).
    simplify_eq. eauto 10.
  - intros (iz & k & -> & Hk & Hc & ->). unfold list_pop. by rewrite Hk, Hc.
Qed.

Lemma table_append_Ok c g u g' :
  table_append c g = (Ok u, g') ↔ g' = set_table (table g ++ [c]) g.
Proof. munfold. destruct u. split; intros; simplify_eq; done. Qed.

Lemma builds_append_Ok b g u g' :
  builds_append b g = (Ok u, g') ↔ g' = set_builds (builds g ++ [b]) g.
Proof. munfold. destruct u. split; intros; simplify_eq; done. Qed.

Lemma modify_Ok f g u g' : modify f g = (Ok u, g') ↔ g' = f g.
Proof. munfold. destruct u. split; intros; simplify_eq; done. Qed.

Lemma gets_Ok {A} (f : Game → A) g a g' :
  gets f g = (Ok a, g') ↔ a = f g ∧ g' = g.
Proof. munfold. split; [intros; by simplify_eq | by intros [-> ->]]. Qed.

Lemma table_setitem_Ok i c g u g' :
  table_setitem i c g = (Ok u, g') ↔
  ∃ k, py_index (length (table g)) i = Some k
    ∧ g' = set_table (<[k := c]> (table g)) g.
Proof.
  munfold. destruct u. split.
  - intros H. destruct (py_index _ i) as [k|] eqn:Hk; simplify_eq. eauto.
  - intros (k & -> & ->). done.
Qed.

(** ** Deck conservation: the cards of a state *)

Lemma concat_fmap_insert {A B} (f : A → list B) (l : list A) i x y :
  l !! i = Some x →
  ∃ rest, concat (f <$> l) ≡ₚ f x ++ rest
        ∧ concat (f <$> <[i := y]> l) ≡ₚ f y ++ rest.
Proof.
  revert i. induction l as [|a l IH]; intros [|i] Hi; simplify_eq/=.
  - eauto.
  - destruct (IH i Hi) as (rest & H1 & H2). exists (f a ++ rest).
    rewrite H1, H2. split; solve_Permutation.
Qed.

Lemma all_cards_assign g r p p' :
  players g !! r = Some p →
  ∃ rest, all_cards g ≡ₚ hand p ++ captured p ++ rest
    ∧ all_cards (set_players (<[r := p']> (players g)) g)
        ≡ₚ hand p' ++ captured p' ++ rest.
Proof.
  intros Hp. unfold all_cards. simpl.
  destruct (concat_fmap_insert hand _ _ _ p' Hp) as (hs & Hh1 & Hh2).
  destruct (concat_fmap_insert captured _ _ _ p' Hp) as (cs & Hc1 & Hc2).
  exists (hs ++ table g ++ concat (cards <$> builds g) ++ cs ++ stock g).
  rewrite Hh1, Hh2, Hc1, Hc2. split; solve_Permutation.
Qed.

Lemma hand_pop_cards r i g c g' :
  hand_pop r i g = (Ok c, g') → all_cards g ≡ₚ c :: all_cards g'.
Proof.
  intros (p & iz & k & Hp & _ & _ & Hc & ->)%hand_pop_Ok.
  destruct (all_cards_assign g r p (set_hand (delete k (hand p)) p) Hp)
    as (rest & -> & ->).
  simpl. by rewrite (delete_Permutation _ _ _ Hc) at 1.
Qed.

Lemma captured_pop_cards r g c g' :
  captured_pop r g = (Ok c, g') → all_cards g ≡ₚ c :: all_cards g'.
Proof.
  intros (p & cs & Hp & Hc & ->)%captured_pop_Ok.
  destruct (all_cards_assign g r p (set_captured cs p) Hp) as (rest & -> & ->).
  simpl. rewrite Hc. solve_Permutation.
Qed.

Lemma captured_extend_cards r cs g u g' :
  captured_extend r cs g = (Ok u, g') → all_cards g' ≡ₚ cs ++ all_cards g.
Proof.
  intros (p & Hp & ->)%captured_extend_Ok.
  destruct (all_cards_assign g r p (set_captured (captured p ++ cs) p) Hp)
    as (rest & -> & ->).
  simpl. solve_Permutation.
Qed.

Lemma hand_extend_cards r cs g u g' :
  hand_extend r cs g = (Ok u, g') → all_cards g' ≡ₚ cs ++ all_cards g.
Proof.
  intros (p & Hp & ->)%hand_extend_Ok.
  destruct (all_cards_assign g r p (set_hand (hand p ++ cs) p) Hp)
    as (rest & -> & ->).
  simpl. solve_Permutation.
Qed.

Lemma hand_remove_cards r c g u g' :
  hand_remove r c g = (Ok u, g') → all_cards g ≡ₚ c :: all_cards g'.
Proof.
  intros (p & cs & Hp & Hc & ->)%hand_remove_Ok.
  destruct (all_cards_assign g r p (set_hand cs p) Hp) as (rest & -> & ->).
  simpl. apply list_remove_Some in Hc as [-> _]. done.
Qed.

Lemma table_pop_cards i g c g' :
  table_pop i g = (Ok c, g') → all_cards g ≡ₚ c :: all_cards g'.
Proof.
  intros (iz & k & _ & _ & Hc & ->)%table_pop_Ok. unfold all_cards. simpl.
  rewrite (delete_Permutation _ _ _ Hc) at 1. solve_Permutation.
Qed.

Lemma builds_pop_cards i g b g' :
  builds_pop i g = (Ok b, g') → all_cards g ≡ₚ cards b ++ all_cards g'.
Proof.
  intros (iz & k & _ & _ & Hc & ->)%builds_pop_Ok. unfold all_cards. simpl.
  rewrite (delete_Permutation _ _ _ Hc) at 1. simpl. solve_Permutation.
Qed.

Lemma table_append_cards c g u g' :
  table_append c g = (Ok u, g') → all_cards g' ≡ₚ c :: all_cards g.
Proof.
  intros ->%table_append_Ok. unfold all_cards. simpl. solve_Permutation.
Qed.

Lemma builds_append_cards b g u g' :
  builds_append b g = (Ok u, g') → all_cards g' ≡ₚ cards b ++ all_cards g.
Proof.
  intros ->%builds_append_Ok. unfold all_cards. simpl.
  rewrite fmap_app, concat_app. simpl. solve_Permutation.
Qed.

Lemma set_last_capturer_cards c g : all_cards (set_last_capturer c g) = all_cards g.
Proof. done. Qed.

Lemma set_active_player_cards a g : all_cards (set_active_player a g) = all_cards g.
Proof. done. Qed.

(** Splits a successful sequence into its successful steps. *)
Ltac inv_binds H :=
  repeat match type of H with
  | (_ ≫= _) _ = (Ok _, _) =>
      let a := fresh "a" in let g := fresh "g" in let Hs := fresh "Hs" in
      apply bind_Ok in H as (a & g & Hs & H)
  end.

(** Replaces each recorded step by what it does to [all_cards]. *)
Ltac cards_facts :=
  repeat match goal with
  | H : players_getitem _ _ = (Ok _, _) |- _ =>
      apply players_getitem_Ok in H as (? & ? & ? & ?); simplify_eq
  | H : hand_pop _ _ _ = (Ok _, _) |- _ => apply hand_pop_cards in H
  | H : captured_pop _ _ = (Ok _, _) |- _ => apply captured_pop_cards in H
  | H : table_pop _ _ = (Ok _, _) |- _ => apply table_pop_cards in H
  | H : builds_pop _ _ = (Ok _, _) |- _ => apply builds_pop_cards in H
  | H : captured_extend _ _ _ = (Ok _, _) |- _ => apply captured_extend_cards in H
  | H : captured_append _ _ _ = (Ok _, _) |- _ => apply captured_extend_cards in H
  | H : hand_extend _ _ _ = (Ok _, _) |- _ => apply hand_extend_cards in H
  | H : hand_append _ _ _ = (Ok _, _) |- _ => apply hand_extend_cards in H
  | H : hand_remove _ _ _ = (Ok _, _) |- _ => apply hand_remove_cards in H
  | H : table_append _ _ = (Ok _, _) |- _ => apply table_append_cards in H
  | H : builds_append _ _ = (Ok _, _) |- _ => apply builds_append_cards in H
  | H : modify _ _ = (Ok _, _) |- _ => apply modify_Ok in H; subst
  | H : gets _ _ = (Ok _, _) |- _ => apply gets_Ok in H as [? ?]; subst
  end.

(** Rewrites with the recorded facts until the two sides can be compared. *)
Ltac chain_cards :=
  repeat match goal with
  | H : all_cards _ ≡ₚ _ |- _ => rewrite H; clear H
  end;
  simpl; try done; solve_Permutation.

Lemma apply_action_cards player_index action g u g' :
  apply_action player_index action g = (Ok u, g') →
  all_cards g' ≡ₚ all_cards g.
Proof.
  unfold apply_action. intros H.
  apply bind_Ok in H as (r & g0 & Hr & H).
  repeat case_bool_decide; inv_binds H; cards_facts;
    rewrite ?set_last_capturer_cards; chain_cards.
Qed.

(** ** Operations that only touch the players *)

Lemma players_changed_refl g : players_changed g g.
Proof. exists (players g). by destruct g. Qed.

Lemma players_changed_trans g1 g2 g3 :
  players_changed g1 g2 → players_changed g2 g3 → players_changed g1 g3.
Proof.
  intros (ps & -> & Hl) (ps' & -> & Hl'). exists ps'. split; [done|].
  simpl in *. congruence.
Qed.

Lemma players_changed_insert g r p :
  players_changed g (set_players (<[r := p]> (players g)) g).
Proof. eexists. split; [done|]. apply length_insert. Qed.

Lemma hand_extend_frame r cs g u g' :
  hand_extend r cs g = (Ok u, g') → players_changed g g'.
Proof.
  intros (p & _ & ->)%hand_extend_Ok. apply players_changed_insert.
Qed.

Lemma captured_extend_frame r cs g u g' :
  captured_extend r cs g = (Ok u, g') → players_changed g g'.
Proof.
  intros (p & _ & ->)%captured_extend_Ok. apply players_changed_insert.
Qed.

Lemma hand_remove_frame r c g u g' :
  hand_remove r c g = (Ok u, g') → players_changed g g'.
Proof.
  intros (p & ? & _ & _ & ->)%hand_remove_Ok. apply players_changed_insert.
Qed.

Lemma hand_extend_succeeds r cs g :
  (r < length (players g))%nat → ∃ g', hand_extend r cs g = (Ok tt, g').
Proof.
  intros [p Hp]%lookup_lt_is_Some. eexists. apply hand_extend_Ok. eauto.
Qed.

(** ** Dealing *)

Lemma deal_Ok n rs deck g deck' g' :
  deal n rs deck g = (Ok deck', g') →
  all_cards g' ++ deck' ≡ₚ all_cards g ++ deck
  ∧ deck' = drop (n * length rs) deck
  ∧ players_changed g g'.
Proof.
  revert deck g. induction rs as [|r rs IH]; intros deck g H; simpl in H.
  - munfold. simplify_eq. rewrite Nat.mul_0_r. split_and!; [done..|].
    apply players_changed_refl.
  - apply bind_Ok in H as ([] & g1 & H1 & H).
    apply IH in H as (HP & -> & Hf). split_and!.
    + rewrite HP. apply hand_extend_cards in H1. rewrite H1.
      rewrite <- (take_drop n deck) at 3. solve_Permutation.
    + rewrite drop_drop. f_equal. simpl. lia.
    + eapply players_changed_trans; [|done]. by eapply hand_extend_frame.
Qed.

Lemma deal_succeeds n rs deck g :
  Forall (λ r, r < length (players g))%nat rs →
  ∃ deck' g', deal n rs deck g = (Ok deck', g').
Proof.
  revert deck g. induction rs as [|r rs IH]; intros deck g Hrs; simpl.
  - by eexists _, _.
  - apply Forall_cons in Hrs as [Hr Hrs].
    destruct (hand_extend_succeeds r (take n deck) g Hr) as (g1 & H1).
    destruct (IH (drop n deck) g1) as (deck' & g' & H).
    { apply hand_extend_frame in H1 as (ps & -> & Hl). simpl. by rewrite Hl. }
    exists deck', g'. by rewrite (bind_step _ _ _ _ _ H1).
Qed.

Lemma player_refs_valid g :
  Forall (λ r, r < length (players g))%nat (seq 0 (length (players g))).
Proof. apply Forall_forall. intros r Hr%elem_of_seq. lia. Qed.

(** ** The opening exchange *)

Lemma set_hand_set_hand h h' p : set_hand h (set_hand h' p) = set_hand h p.
Proof. done. Qed.

Lemma set_players_set_players ps ps' g :
  set_players ps (set_players ps' g) = set_players ps g.
Proof. done. Qed.

(** One successful exchange, step by step. *)
Lemma exchange_steps starter r g p card rest t0 t :
  players g !! r = Some p →
  list_remove card (hand p) = Some rest →
  table g = t0 :: t →
  (hand_remove r card;; hand_append r starter;; table_setitem 0 card) g
  = (Ok tt, set_table (card :: t)
              (set_players (<[r := set_hand (rest ++ [starter]) p]> (players g)) g)).
Proof.
  intros Hp Hrest Ht.
  assert (r < length (players g))%nat as Hr by by eapply lookup_lt_Some.
  set (g1 := set_players (<[r := set_hand rest p]> (players g)) g).
  set (g2 := set_players
               (<[r := set_hand (rest ++ [starter]) p]> (players g)) g).
  assert (hand_remove r card g = (Ok tt, g1)) as H1.
  { apply hand_remove_Ok. eauto. }
  assert (hand_append r starter g1 = (Ok tt, g2)) as H2.
  { apply hand_extend_Ok. exists (set_hand rest p). split.
    - simpl. by apply list_lookup_insert_eq.
    - unfold g2, g1. simpl. by rewrite list_insert_insert_eq. }
  rewrite (bind_step _ _ _ _ _ H1), (bind_step _ _ _ _ _ H2).
  munfold. simpl. by rewrite Ht.
Qed.

Lemma exchange_scan_spec starter rs g t0 t :
  Forall (λ r, r < length (players g))%nat rs →
  table g = t0 :: t →
  (Forall (holds_none g) rs ∧ exchange_scan starter rs g = (Ok tt, g))
  ∨ (∃ rs1 i rs2 p card rest,
        rs = rs1 ++ i :: rs2 ∧ Forall (holds_none g) rs1
        ∧ players g !! i = Some p
        ∧ find is_three_of_hearts (hand p) = Some card
        ∧ list_remove card (hand p) = Some rest
        ∧ exchange_scan starter rs g
          = (Ok tt, set_table (card :: t)
                      (set_players
                         (<[i := set_hand (rest ++ [starter]) p]> (players g)) g))).
Proof.
  intros Hrs Ht. induction rs as [|r rs IH]; [by left|].
  apply Forall_cons in Hrs as [Hr Hrs].
  apply lookup_lt_is_Some in Hr as [p Hp].
  assert (deref r g = (Ok p, g)) as Hd by (munfold; by rewrite Hp).
  simpl. rewrite (bind_step _ _ _ _ _ Hd).
  destruct (find is_three_of_hearts (hand p)) as [card|] eqn:Hf.
  - right. pose proof (find_some _ _ Hf) as [Hin _].
    apply list_elem_of_In, list_remove_elem_of in Hin as [rest Hrest].
    exists [], r, rs, p, card, rest. split_and!; try done.
    by eapply exchange_steps.
  - destruct (IH Hrs) as [[Hn He]|
      (rs1 & i & rs2 & q & card & rest & -> & Hn & Hq & Hc & Hrest & He)].
    + left. split; [|done]. constructor; [|done]. by exists p.
    + right. exists (r :: rs1), i, rs2, q, card, rest.
      split_and!; try done. constructor; [by exists p | done].
Qed.

Lemma find_three_of_hearts cs card :
  find is_three_of_hearts cs = Some card → card = mkCard 3 "H" ∧ card ∈ cs.
Proof.
  intros [Hin Hc]%find_some. apply list_elem_of_In in Hin.
  unfold is_three_of_hearts in Hc. apply andb_prop in Hc as [Hv Hs].
  apply bool_decide_eq_true in Hv, Hs. destruct card; simpl in *. by subst.
Qed.

Lemma find_three_of_hearts_None cs :
  find is_three_of_hearts cs = None ↔ mkCard 3 "H" ∉ cs.
Proof.
  split.
  - intros Hf Hin%list_elem_of_In. by apply (find_none _ _ Hf) in Hin.
  - intros Hn. destruct (find _ cs) as [c|] eqn:Hf; [|done].
    apply find_three_of_hearts in Hf as [-> ?]. done.
Qed.

Lemma exchange_result_cards g i p card rest starter t :
  players g !! i = Some p →
  list_remove card (hand p) = Some rest →
  table g = starter :: t →
  all_cards (set_table (card :: t)
               (set_players (<[i := set_hand (rest ++ [starter]) p]> (players g)) g))
  ≡ₚ all_cards g.
Proof.
  intros Hp [Hrest _]%list_remove_Some Ht. unfold all_cards. simpl.
  destruct (concat_fmap_insert hand _ _ _ (set_hand (rest ++ [starter]) p) Hp)
    as (hs & -> & ->).
  destruct (concat_fmap_insert captured _ _ _ (set_hand (rest ++ [starter]) p) Hp)
    as (cs & -> & ->).
  simpl. rewrite Ht, Hrest. solve_Permutation.
Qed.

(** The exchange always returns; it moves cards between one hand and the
    table and touches nothing else. *)
Lemma resolve_three_of_hearts_exchange_total g :
  ∃ g', _resolve_three_of_hearts_exchange g = (Ok tt, g')
    ∧ all_cards g' ≡ₚ all_cards g
    ∧ stock g' = stock g ∧ builds g' = builds g
    ∧ length (table g') = length (table g)
    ∧ same_seats g g' ∧ last_capturer g' = last_capturer g.
Proof.
  unfold _resolve_three_of_hearts_exchange, same_seats.
  rewrite (bind_step _ _ g (table g) g) by done.
  destruct (table g) as [|starter t] eqn:Ht; [exists g; by rewrite Ht|].
  rewrite (bind_step _ _ g (seq 0 (length (players g))) g) by done.
  destruct (exchange_scan_spec starter _ g starter t (player_refs_valid g) Ht)
    as [[_ ->]|(rs1 & i & rs2 & p & card & rest & _ & _ & Hp & _ & Hr & ->)].
  - exists g. by rewrite Ht.
  - eexists. split; [done|]. split_and!; simpl; try done.
    + by apply exchange_result_cards.
    + by rewrite length_insert.
Qed.

(** The state [_setup] reaches before the exchange, in a three-player game. *)
Lemma deal_three_blank (deck : list Card) :
  length deck = 40%nat →
  deal_three deck (blank_game 3)
  = (Ok tt, mkGame 3 [mkPlayer "P1" (take 13 deck) [];
                      mkPlayer "P2" (take 13 (drop 13 deck)) [];
                      mkPlayer "P3" (take 13 (drop 26 deck)) []]
                   (drop 39 deck) [] [] None 0).
Proof.
  intros Hl.
  do 40 (destruct deck as [|? deck]; [done|]). destruct deck; [|done].
  vm_compute. reflexivity.
Qed.

Lemma full_deck_length : length full_deck = 40%nat.
Proof. reflexivity. Qed.

Lemma full_deck_NoDup : NoDup full_deck.
Proof. apply (bool_decide_unpack _). vm_compute. exact I. Qed.

Lemma elem_of_full_deck card :
  card ∈ full_deck ↔ suit card ∈ SUITS ∧ 1 ≤ value card ≤ 10.
Proof.
  unfold full_deck. rewrite list_elem_of_bind. split.
  - intros (s & (v & ->%list_elem_of_singleton & Hv%elem_of_seqZ)%list_elem_of_bind & Hs).
    simpl. split; [done | lia].
  - intros [Hs Hv]. exists (suit card). split; [|done].
    apply list_elem_of_bind. exists (value card).
    split; [destruct card; apply list_elem_of_singleton; done|].
    apply elem_of_seqZ. lia.
Qed.

Lemma all_cards_blank n : all_cards (blank_game n) = [].
Proof.
  unfold all_cards, blank_game. simpl. rewrite <- !list_fmap_compose.
  induction (seqZ 0 n); simpl; [done|]. by rewrite app_nil_r in *.
Qed.

Lemma all_cards_set_stock_nil s g :
  stock g = [] → all_cards (set_stock s g) ≡ₚ all_cards g ++ s.
Proof.
  intros Hs. unfold all_cards. simpl. rewrite Hs, app_nil_r.
  by rewrite <- !(assoc_L (++)).
Qed.

Lemma dealt_three_cards (deck : list Card) :
  length deck = 40%nat →
  all_cards (mkGame 3 [mkPlayer "P1" (take 13 deck) [];
                       mkPlayer "P2" (take 13 (drop 13 deck)) [];
                       mkPlayer "P3" (take 13 (drop 26 deck)) []]
                    (drop 39 deck) [] [] None 0) = deck.
Proof.
  intros Hl.
  do 40 (destruct deck as [|? deck]; [done|]). destruct deck; [|done].
  reflexivity.
Qed.

Section SetupFacts.

Variable shuffle : list Card → list Card.
Hypothesis shuffle_perm : ∀ l, shuffle l ≡ₚ l.

Lemma shuffled_length : length (shuffle full_deck) = 40%nat.
Proof. by rewrite shuffle_perm. Qed.

Lemma setup_two :
  ∃ g, _setup shuffle (blank_game 2) = (Ok tt, g)
       ∧ deck_conserved g ∧ well_formed g.
Proof.
  unfold _setup.
  rewrite (bind_step _ _ _ 2 (blank_game 2)) by done.
  rewrite bool_decide_true by done.
  rewrite (bind_step _ _ _ (seq 0 2) (blank_game 2)) by done.
  destruct (deal_succeeds 10 (seq 0 2) (shuffle full_deck) (blank_game 2))
    as (deck' & g1 & Hd).
  { apply (player_refs_valid (blank_game 2)). }
  rewrite (bind_step _ _ _ _ _ Hd).
  apply deal_Ok in Hd as (HP & _ & ps & -> & Hl).
  eexists. split; [done|]. split.
  - unfold deck_conserved. rewrite all_cards_set_stock_nil by done.
    by rewrite HP, all_cards_blank, shuffle_perm.
  - unfold well_formed. simpl. rewrite Hl. split_and!; by auto.
Qed.

Lemma setup_three :
  ∃ g, _setup shuffle (blank_game 3) = (Ok tt, g)
       ∧ deck_conserved g ∧ well_formed g.
Proof.
  unfold _setup.
  rewrite (bind_step _ _ _ 3 (blank_game 3)) by done.
  rewrite bool_decide_false by done.
  rewrite (bind_step _ _ _ _ _ (deal_three_blank _ shuffled_length)).
  match goal with |- context [mkGame 3 ?ps ?t [] [] None 0] =>
    set (dealt := mkGame 3 ps t [] [] None 0) end.
  destruct (resolve_three_of_hearts_exchange_total dealt)
    as (g2 & Hres & HP & Hs & _ & _ & (Hn & Hl & Ha) & Hlc).
  rewrite (bind_step _ _ _ _ _ Hres).
  eexists. split; [done|]. split.
  - unfold deck_conserved.
    rewrite all_cards_set_stock_nil, app_nil_r by by rewrite Hs.
    rewrite HP. unfold dealt.
    by rewrite (dealt_three_cards _ shuffled_length), shuffle_perm.
  - unfold well_formed. simpl. rewrite Hn, Hl, Ha, Hlc. simpl.
    split_and!; by auto.
Qed.

Lemma new_game_Ok n g :
  new_game shuffle n = Ok g ↔
  (n = 2 ∨ n = 3) ∧ _setup shuffle (blank_game n) = (Ok tt, g).
Proof.
  unfold new_game. case_bool_decide as Hn.
  - destruct (_setup shuffle (blank_game n)) as [[[]|e] g']; split;
      try (intros [_ ?]); intros; by simplify_eq.
  - split; [done|]. by intros [? _].
Qed.

Lemma new_game_succeeds n :
  n = 2 ∨ n = 3 → ∃ g, new_game shuffle n = Ok g.
Proof.
  intros Hn.
  assert (∃ g, _setup shuffle (blank_game n) = (Ok tt, g)) as [g Hg].
  { destruct Hn as [-> | ->];
      [destruct setup_two as (g & ? & _) | destruct setup_three as (g & ? & _)];
      eauto. }
  exists g. by apply new_game_Ok.
Qed.

Lemma new_game_conserved n g :
  new_game shuffle n = Ok g → deck_conserved g ∧ well_formed g.
Proof.
  intros [[-> | ->] Hg]%new_game_Ok.
  - destruct setup_two as (g' & Hg' & ?). congruence.
  - destruct setup_three as (g' & Hg' & ?). congruence.
Qed.

End SetupFacts.

(** ** The second deal and the turn *)

Lemma all_cards_set_stock s g :
  all_cards (set_stock s g) ++ stock g ≡ₚ all_cards g ++ s.
Proof. unfold all_cards. simpl. solve_Permutation. Qed.

Lemma deal_from_stock_cards rs g u g' :
  deal_from_stock rs g = (Ok u, g') → all_cards g' ≡ₚ all_cards g.
Proof.
  revert g. induction rs as [|r rs IH]; intros g H; simpl in H.
  - munfold. by simplify_eq.
  - inv_binds H. apply IH in H. rewrite H. clear H IH.
    apply gets_Ok in Hs as [-> ->]. apply modify_Ok in Hs1 as ->.
    pose proof (hand_extend_frame _ _ _ _ _ Hs0) as (ps & Hg & _).
    apply hand_extend_cards in Hs0.
    apply (Permutation_app_inv_r (stock g)).
    assert (stock g1 = stock g) as Hst by by rewrite Hg.
    rewrite <- Hst at 2. rewrite all_cards_set_stock, Hs0.
    transitivity (all_cards g ++ take 10 (stock g) ++ drop 10 (stock g));
      [solve_Permutation | by rewrite take_drop].
Qed.

Lemma deal_second_round_cards g u g' :
  _deal_second_round g = (Ok u, g') → all_cards g' ≡ₚ all_cards g.
Proof.
  unfold _deal_second_round. intros H. inv_binds H.
  apply gets_Ok in Hs as [-> ->]. apply gets_Ok in Hs0 as [-> ->].
  destruct (_ || _).
  { munfold. by simplify_eq. }
  inv_binds H. apply gets_Ok in Hs as [-> ->].
  destruct (existsb _ _).
  { munfold. by simplify_eq. }
  inv_binds H. apply gets_Ok in Hs as [-> ->].
  by eapply deal_from_stock_cards.
Qed.

Lemma advance_turn_cards g u g' :
  advance_turn g = (Ok u, g') → all_cards g' ≡ₚ all_cards g.
Proof.
  unfold advance_turn. intros H. inv_binds H.
  apply gets_Ok in Hs as [-> ->]. apply gets_Ok in Hs0 as [-> ->].
  case_bool_decide; [done|]. inv_binds H. apply modify_Ok in Hs as ->.
  apply deal_second_round_cards in H. by rewrite H.
Qed.

(** ** The final sweep *)

Lemma set_captured_id p : set_captured (captured p) p = p.
Proof. by destruct p. Qed.

Lemma set_players_id g : set_players (players g) g = g.
Proof. by destruct g. Qed.

Lemma collect_builds_Ok r bs g p :
  players g !! r = Some p →
  collect_builds r bs g
  = (Ok tt, set_players
              (<[r := set_captured (captured p ++ concat (cards <$> bs)) p]>
                 (players g)) g).
Proof.
  revert g p. induction bs as [|b bs IH]; intros g p Hp; simpl.
  - by rewrite app_nil_r, set_captured_id, list_insert_id, set_players_id.
  - set (p1 := set_captured (captured p ++ cards b) p).
    set (g1 := set_players (<[r := p1]> (players g)) g).
    assert (captured_extend r (cards b) g = (Ok tt, g1)) as H1.
    { apply captured_extend_Ok. eauto. }
    rewrite (bind_step _ _ _ _ _ H1), (IH g1 p1).
    + unfold g1, p1. simpl.
      by rewrite list_insert_insert_eq, <- (assoc_L (++)).
    + simpl. apply list_lookup_insert_eq. by eapply lookup_lt_Some.
Qed.

Lemma collect_remaining_table_None g :
  last_capturer g = None → collect_remaining_table g = (Ok tt, g).
Proof.
  intros Hl. unfold collect_remaining_table.
  rewrite (bind_step _ _ g None g); [done|]. munfold. by rewrite Hl.
Qed.

Lemma collect_remaining_table_Some g i r p :
  last_capturer g = Some i →
  py_index (length (players g)) i = Some r →
  players g !! r = Some p →
  collect_remaining_table g
  = (Ok tt,
     set_builds [] (set_table []
       (set_players
          (<[r := set_captured
                    (captured p ++ table g ++ concat (cards <$> builds g)) p]>
             (players g)) g))).
Proof.
  intros Hl Hr Hp. unfold collect_remaining_table.
  rewrite (bind_step _ _ g (Some i) g) by (munfold; by rewrite Hl).
  rewrite (bind_step _ _ g r g) by (munfold; by rewrite Hr).
  rewrite (bind_step _ _ g (table g) g) by done.
  set (p1 := set_captured (captured p ++ table g) p).
  set (g1 := set_players (<[r := p1]> (players g)) g).
  assert (captured_extend r (table g) g = (Ok tt, g1)) as H1.
  { apply captured_extend_Ok. eauto. }
  rewrite (bind_step _ _ _ _ _ H1).
  rewrite (bind_step _ _ g1 tt (set_table [] g1)) by done.
  rewrite (bind_step _ _ _ (builds g) (set_table [] g1)) by done.
  assert (players (set_table [] g1) !! r = Some p1) as Hp1.
  { simpl. apply list_lookup_insert_eq. by eapply lookup_lt_Some. }
  rewrite (bind_step _ _ _ _ _ (collect_builds_Ok r (builds g) _ p1 Hp1)).
  unfold g1, p1. munfold. simpl.
  by rewrite list_insert_insert_eq, <- (assoc_L (++)).
Qed.

Lemma collect_remaining_table_IndexError g i :
  last_capturer g = Some i →
  py_index (length (players g)) i = None →
  collect_remaining_table g = (Raise IndexError, g).
Proof.
  intros Hl Hr. unfold collect_remaining_table.
  rewrite (bind_step _ _ g (Some i) g) by (munfold; by rewrite Hl).
  munfold. by rewrite Hr.
Qed.

Lemma collect_remaining_table_cards g res g' :
  collect_remaining_table g = (res, g') → all_cards g' ≡ₚ all_cards g.
Proof.
  destruct (last_capturer g) as [i|] eqn:Hl.
  - destruct (py_index (length (players g)) i) as [r|] eqn:Hr.
    + pose proof (proj1 (py_index_Some _ _ _) Hr) as [Hlt _].
      apply lookup_lt_is_Some in Hlt as [p Hp].
      rewrite (collect_remaining_table_Some g i r p) by done.
      intros [= _ <-]. unfold all_cards. simpl.
      match goal with |- context [<[r := ?q]> _] => set (p' := q) end.
      destruct (concat_fmap_insert hand _ _ _ p' Hp) as (hs & -> & ->).
      destruct (concat_fmap_insert captured _ _ _ p' Hp) as (cs & -> & ->).
      simpl. solve_Permutation.
    + rewrite (collect_remaining_table_IndexError g i) by done.
      by intros [= _ <-].
  - rewrite collect_remaining_table_None by done. by intros [= _ <-].
Qed.

(** ** [apply_action] on operands that exist

    The state each kind of action produces when the indices it uses denote
    positions of the lists they index (in Python's sense, so negative
    indices count from the end). *)

Section ApplyValid.

Context (g : Game) (player_index : Z) (r : nat) (p : Player).
Hypothesis Hr : py_index (length (players g)) player_index = Some r.
Hypothesis Hp : players g !! r = Some p.

Lemma acting_player : players_getitem (Some player_index) g = (Ok r, g).
Proof. apply players_getitem_Ok. eauto. Qed.

Lemma acting_hand_pop hi k card :
  py_index (length (hand p)) hi = Some k → hand p !! k = Some card →
  hand_pop r (Some hi) g
  = (Ok card,
     set_players (<[r := set_hand (delete k (hand p)) p]> (players g)) g).
Proof. intros. apply hand_pop_Ok. eauto 10. Qed.

Lemma acting_lookup_insert q : <[r := q]> (players g) !! r = Some q.
Proof. apply list_lookup_insert_eq. by eapply lookup_lt_Some. Qed.

Lemma apply_throw a hi k card :
  kind a = "throw" → hand_index a = Some hi →
  py_index (length (hand p)) hi = Some k → hand p !! k = Some card →
  apply_action player_index a g
  = (Ok tt,
     mkGame (player_count g)
       (<[r := mkPlayer (name p) (delete k (hand p)) (captured p)]> (players g))
       (table g ++ [card]) (builds g) (stock g)
       (last_capturer g) (active_player g)).
Proof.
  intros Hkind Hhi Hk Hc. unfold apply_action.
  rewrite (bind_step _ _ _ _ _ acting_player), Hkind, Hhi.
  rewrite bool_decide_true by done.
  by rewrite (bind_step _ _ _ _ _ (acting_hand_pop _ _ _ Hk Hc)).
Qed.

Lemma apply_capture a hi k card ti j table_card :
  kind a = "capture" → hand_index a = Some hi → table_index a = Some ti →
  py_index (length (hand p)) hi = Some k → hand p !! k = Some card →
  py_index (length (table g)) ti = Some j → table g !! j = Some table_card →
  apply_action player_index a g
  = (Ok tt,
     mkGame (player_count g)
       (<[r := mkPlayer (name p) (delete k (hand p))
                        (captured p ++ [card; table_card])]> (players g))
       (delete j (table g)) (builds g) (stock g)
       (Some player_index) (active_player g)).
Proof.
  intros Hkind Hhi Hti Hk Hc Hj Htc. unfold apply_action.
  rewrite (bind_step _ _ _ _ _ acting_player), Hkind, Hhi, Hti.
  rewrite bool_decide_false, bool_decide_true by done.
  rewrite (bind_step _ _ _ _ _ (acting_hand_pop _ _ _ Hk Hc)).
  erewrite bind_step; last by (apply table_pop_Ok; eauto 10).
  erewrite (bind_step _ _ _ tt); last first.
  { apply captured_extend_Ok. eexists. split; [|done]. simpl.
    rewrite ?list_insert_insert_eq. apply acting_lookup_insert. }
  munfold. unfold set_last_capturer, set_players, set_table. simpl.
  by rewrite list_insert_insert_eq.
Qed.

Lemma apply_capture_build a hi k card bi j build :
  kind a = "capture_build" →
  hand_index a = Some hi → build_index a = Some bi →
  py_index (length (hand p)) hi = Some k → hand p !! k = Some card →
  py_index (length (builds g)) bi = Some j → builds g !! j = Some build →
  apply_action player_index a g
  = (Ok tt,
     mkGame (player_count g)
       (<[r := mkPlayer (name p) (delete k (hand p))
                        (captured p ++ card :: cards build)]> (players g))
       (table g) (delete j (builds g)) (stock g)
       (Some player_index) (active_player g)).
Proof.
  intros Hkind Hhi Hbi Hk Hc Hj Hb. unfold apply_action.
  rewrite (bind_step _ _ _ _ _ acting_player), Hkind, Hhi, Hbi.
  rewrite !bool_decide_false, bool_decide_true by done.
  rewrite (bind_step _ _ _ _ _ (acting_hand_pop _ _ _ Hk Hc)).
  erewrite bind_step; last by (apply builds_pop_Ok; eauto 10).
  erewrite (bind_step _ _ _ tt); last first.
  { apply captured_extend_Ok. eexists. split; [|done]. simpl.
    rewrite ?list_insert_insert_eq. apply acting_lookup_insert. }
  erewrite (bind_step _ _ _ tt); last first.
  { apply captured_extend_Ok. eexists. split; [|done]. simpl.
    rewrite ?list_insert_insert_eq. apply acting_lookup_insert. }
  munfold. unfold set_last_capturer, set_players, set_builds. simpl.
  by rewrite !list_insert_insert_eq, <- (assoc_L (++)).
Qed.

Lemma apply_build a hi k card ti j table_card :
  kind a = "build" → hand_index a = Some hi → table_index a = Some ti →
  py_index (length (hand p)) hi = Some k → hand p !! k = Some card →
  py_index (length (table g)) ti = Some j → table g !! j = Some table_card →
  apply_action player_index a g
  = (Ok tt,
     mkGame (player_count g)
       (<[r := mkPlayer (name p) (delete k (hand p)) (captured p)]> (players g))
       (delete j (table g))
       (builds g ++ [mkBuild [card; table_card] (target_total a)]) (stock g)
       (last_capturer g) (active_player g)).
Proof.
  intros Hkind Hhi Hti Hk Hc Hj Htc. unfold apply_action.
  rewrite (bind_step _ _ _ _ _ acting_player), Hkind, Hhi, Hti.
  rewrite !bool_decide_false, bool_decide_true by done.
  rewrite (bind_step _ _ _ _ _ (acting_hand_pop _ _ _ Hk Hc)).
  erewrite bind_step; last by (apply table_pop_Ok; eauto 10).
  done.
Qed.

(** The acting player is only looked up; the pile that loses its last card
    is that of [steal_from], whoever that is. *)
Lemma apply_steal_build a sf o opponent pile stolen ti j table_card :
  kind a = "steal_build" → steal_from a = Some sf → table_index a = Some ti →
  py_index (length (players g)) sf = Some o →
  players g !! o = Some opponent → captured opponent = pile ++ [stolen] →
  py_index (length (table g)) ti = Some j → table g !! j = Some table_card →
  apply_action player_index a g
  = (Ok tt,
     mkGame (player_count g)
       (<[o := mkPlayer (name opponent) (hand opponent) pile]> (players g))
       (delete j (table g))
       (builds g ++ [mkBuild [stolen; table_card] (target_total a)]) (stock g)
       (last_capturer g) (active_player g)).
Proof.
  intros Hkind Hsf Hti Ho Hopp Hpile Hj Htc. unfold apply_action.
  rewrite (bind_step _ _ _ _ _ acting_player), Hkind, Hsf, Hti.
  rewrite !bool_decide_false, bool_decide_true by done.
  erewrite bind_step; last by (apply players_getitem_Ok; eauto).
  erewrite bind_step; last by (apply captured_pop_Ok; eauto 10).
  erewrite bind_step; last by (apply table_pop_Ok; eauto 10).
  done.
Qed.

End ApplyValid.

(** ** What [legal_moves] returns *)

Lemma any_value_true target cs :
  any_value target cs = true ↔ ∃ c, c ∈ cs ∧ value c = target.
Proof.
  unfold any_value. rewrite existsb_exists. split.
  - intros (c & Hin & Hc). exists c. split; [by apply list_elem_of_In|].
    by apply bool_decide_eq_true in Hc.
  - intros (c & Hin & Hc). exists c. split; [by apply list_elem_of_In|].
    by apply bool_decide_eq_true.
Qed.

Lemma elem_of_guarded {A} (b : bool) (x y : A) :
  x ∈ (if b then [y] else []) ↔ b = true ∧ x = y.
Proof.
  destruct b; [rewrite list_elem_of_singleton | rewrite elem_of_nil].
  - split; [done | by intros [_ ?]].
  - split; [done | by intros [? _]].
Qed.

Lemma elem_of_card_moves g player i card a pi :
  hand player !! i = Some card →
  a ∈ card_moves g player (Z.of_nat i) card → legal g pi player a.
Proof.
  intros Hc. unfold card_moves.
  rewrite !elem_of_app, list_elem_of_singleton, !list_elem_of_bind.
  intros [->|[([z tc] & Ha & Hin)|[([z b] & Ha & Hin)|([z tc] & Ha & Hin)]]].
  - by econstructor.
  - apply elem_of_enumerate in Hin as (j & -> & Hj).
    apply elem_of_guarded in Ha as [Hv%bool_decide_eq_true ->].
    by econstructor.
  - apply elem_of_enumerate in Hin as (j & -> & Hj).
    apply elem_of_guarded in Ha as [Hv%bool_decide_eq_true ->].
    by econstructor.
  - apply elem_of_enumerate in Hin as (j & -> & Hj).
    apply elem_of_guarded in Ha as [(o & Ho & Hv)%any_value_true ->].
    apply list_elem_of_filter in Ho as [Hne Ho]. by econstructor.
Qed.

Lemma elem_of_steal_moves g player pi o opponent a :
  players g !! o = Some opponent →
  a ∈ steal_moves g player pi (Z.of_nat o) opponent → legal g pi player a.
Proof.
  intros Ho. unfold steal_moves. case_bool_decide as Hne; [by intros ?%elem_of_nil|].
  destruct (last (captured opponent)) as [top|] eqn:Htop;
    [|by intros ?%elem_of_nil].
  rewrite list_elem_of_bind. intros ([z tc] & Ha & Hin).
  apply elem_of_enumerate in Hin as (j & -> & Hj).
  apply elem_of_guarded in Ha as [(hc & Hhc & Hv)%any_value_true ->].
  by econstructor.
Qed.

Lemma list_getitem_Ok {A} (l : list A) i x :
  list_getitem l i = Ok x ↔
  ∃ iz k, i = Some iz ∧ py_index (length l) iz = Some k ∧ l !! k = Some x.
Proof.
  unfold list_getitem. split.
  - destruct i as [iz|]; [|done].
    destruct (py_index (length l) iz) as [k|] eqn:Hk; [|done]. simpl.
    destruct (l !! k) eqn:Hx; [|done]. intros [= ->]. eauto.
  - intros (iz & k & -> & -> & Hx). simpl. by rewrite Hx.
Qed.

(** [legal_moves] returns, for a player that exists, actions that are all
    [legal]; for a player that does not exist it raises. *)
Lemma legal_moves_Ok g player_index acts :
  legal_moves g player_index = Ok acts →
  ∃ r player, py_index (length (players g)) player_index = Some r
    ∧ players g !! r = Some player
    ∧ acts = ('(idx, card) ← enumerate (hand player);
              card_moves g player idx card)
             ++ ('(opponent_index, opponent) ← enumerate (players g);
                 steal_moves g player player_index opponent_index opponent)
    ∧ ∀ a, a ∈ acts → legal g player_index player a.
Proof.
  unfold legal_moves.
  destruct (list_getitem _ _) as [player|] eqn:Hg; [|done].
  apply list_getitem_Ok in Hg as (? & r & [= <-] & Hr & Hp).
  intros [= <-]. exists r, player. split_and!; try done.
  intros a [Ha|Ha]%elem_of_app.
  - apply list_elem_of_bind in Ha as ([z card] & Ha & Hin).
    apply elem_of_enumerate in Hin as (i & -> & Hi).
    by eapply elem_of_card_moves.
  - apply list_elem_of_bind in Ha as ([z opp] & Ha & Hin).
    apply elem_of_enumerate in Hin as (o & -> & Ho).
    by eapply elem_of_steal_moves.
Qed.

Lemma legal_apply_succeeds g player_index r player a :
  py_index (length (players g)) player_index = Some r →
  players g !! r = Some player →
  legal g player_index player a →
  ∃ g', apply_action player_index a g = (Ok tt, g').
Proof.
  intros Hr Hp Ha.
  destruct Ha as [i card Hc|i card j tc Hc Ht _|i card j b Hc Hb _
                 |i card j tc other Hc Ht _ _ _
                 |o opp top j tc hc Ho _ Htop Ht _ _].
  - eexists. eapply (apply_throw g _ r player Hr Hp); try done.
    apply py_index_of_nat. by eapply lookup_lt_Some.
  - eexists. eapply (apply_capture g _ r player Hr Hp); try done;
      apply py_index_of_nat; by eapply lookup_lt_Some.
  - eexists. eapply (apply_capture_build g _ r player Hr Hp); try done;
      apply py_index_of_nat; by eapply lookup_lt_Some.
  - eexists. eapply (apply_build g _ r player Hr Hp); try done;
      apply py_index_of_nat; by eapply lookup_lt_Some.
  - apply last_Some in Htop as [pile Hpile].
    eexists. eapply (apply_steal_build g _ r Hr); try done;
      apply py_index_of_nat; by eapply lookup_lt_Some.
Qed.

Lemma legal_moves_apply g player_index acts a :
  legal_moves g player_index = Ok acts → a ∈ acts →
  ∃ g', apply_action player_index a g = (Ok tt, g')
        ∧ all_cards g' ≡ₚ all_cards g.
Proof.
  intros (r & player & Hr & Hp & _ & Hl)%legal_moves_Ok Ha.
  destruct (legal_apply_succeeds g player_index r player a) as [g' Hg'];
    [done | done | by apply Hl |].
  exists g'. split; [done|]. by eapply apply_action_cards.
Qed.

(** ** Seats, and operations that always return *)

(** Replaces each recorded step by the state it produces. *)
Ltac steps_facts :=
  repeat match goal with
  | H : players_getitem _ _ = (Ok _, _) |- _ =>
      apply players_getitem_Ok in H as (? & ? & ? & ?)
  | H : hand_pop _ _ _ = (Ok _, _) |- _ =>
      apply hand_pop_Ok in H as (? & ? & ? & ? & ? & ? & ? & ?)
  | H : captured_pop _ _ = (Ok _, _) |- _ =>
      apply captured_pop_Ok in H as (? & ? & ? & ? & ?)
  | H : table_pop _ _ = (Ok _, _) |- _ =>
      apply table_pop_Ok in H as (? & ? & ? & ? & ? & ?)
  | H : builds_pop _ _ = (Ok _, _) |- _ =>
      apply builds_pop_Ok in H as (? & ? & ? & ? & ? & ?)
  | H : captured_extend _ _ _ = (Ok _, _) |- _ =>
      apply captured_extend_Ok in H as (? & ? & ?)
  | H : captured_append _ _ _ = (Ok _, _) |- _ =>
      apply captured_extend_Ok in H as (? & ? & ?)
  | H : hand_extend _ _ _ = (Ok _, _) |- _ =>
      apply hand_extend_Ok in H as (? & ? & ?)
  | H : table_append _ _ = (Ok _, _) |- _ => apply table_append_Ok in H
  | H : builds_append _ _ = (Ok _, _) |- _ => apply builds_append_Ok in H
  | H : modify _ _ = (Ok _, _) |- _ => apply modify_Ok in H
  | H : gets _ _ = (Ok _, _) |- _ => apply gets_Ok in H as [? ?]
  end.

Lemma apply_action_seats player_index a g u g' :
  apply_action player_index a g = (Ok u, g') →
  same_seats g g'
  ∧ (last_capturer g' = last_capturer g
     ∨ last_capturer g' = Some player_index
       ∧ is_Some (py_index (length (players g)) player_index)).
Proof.
  unfold apply_action, same_seats. intros H.
  apply bind_Ok in H as (r & g0 & Hr & H).
  repeat case_bool_decide; inv_binds H; steps_facts; simplify_eq/=;
    rewrite ?length_insert; eauto 10.
Qed.

Lemma deal_from_stock_seats rs g u g' :
  deal_from_stock rs g = (Ok u, g') →
  same_seats g g' ∧ last_capturer g' = last_capturer g.
Proof.
  unfold same_seats. revert g.
  induction rs as [|r rs IH]; intros g H; simpl in H.
  - munfold. by simplify_eq.
  - inv_binds H. apply IH in H as ((-> & -> & ->) & ->).
    steps_facts. simplify_eq/=. by rewrite length_insert.
Qed.

Lemma deal_from_stock_succeeds rs g :
  Forall (λ r, r < length (players g))%nat rs →
  ∃ g', deal_from_stock rs g = (Ok tt, g').
Proof.
  revert g. induction rs as [|r rs IH]; intros g Hrs; simpl.
  - by eexists.
  - apply Forall_cons in Hrs as [Hr Hrs].
    rewrite (bind_step _ _ g (stock g) g) by done.
    destruct (hand_extend_succeeds r (take 10 (stock g)) g Hr) as (g1 & H1).
    rewrite (bind_step _ _ _ _ _ H1).
    rewrite (bind_step _ _ g1 tt (set_stock (drop 10 (stock g)) g1)) by done.
    apply IH. apply hand_extend_frame in H1 as (ps & -> & Hl). simpl.
    by rewrite Hl.
Qed.

Lemma deal_second_round_total g :
  ∃ g', _deal_second_round g = (Ok tt, g')
    ∧ same_seats g g' ∧ last_capturer g' = last_capturer g.
Proof.
  unfold _deal_second_round.
  rewrite (bind_step _ _ g (player_count g) g) by done.
  rewrite (bind_step _ _ g (stock g) g) by done.
  destruct (_ || _); [by exists g|].
  rewrite (bind_step _ _ g (players g) g) by done.
  destruct (existsb _ _); [by exists g|].
  rewrite (bind_step _ _ g (seq 0 (length (players g))) g) by done.
  destruct (deal_from_stock_succeeds _ g (player_refs_valid g)) as [g' Hg'].
  exists g'. split; [done|]. by eapply deal_from_stock_seats.
Qed.

Lemma advance_turn_total g :
  player_count g ≠ 0 →
  ∃ g', advance_turn g = (Ok tt, g')
    ∧ player_count g' = player_count g
    ∧ length (players g') = length (players g)
    ∧ active_player g' = (active_player g + 1) `mod` player_count g
    ∧ last_capturer g' = last_capturer g.
Proof.
  intros Hn. unfold advance_turn.
  rewrite (bind_step _ _ g (active_player g) g) by done.
  rewrite (bind_step _ _ g (player_count g) g) by done.
  rewrite bool_decide_false by done.
  set (g1 := set_active_player
               ((active_player g + 1) `mod` player_count g) g).
  rewrite (bind_step _ _ g tt g1) by done.
  destruct (deal_second_round_total g1) as (g' & Hg' & (? & ? & ?) & ?).
  exists g'. split_and!; try done; congruence.
Qed.

Lemma well_formed_advance_turn g :
  well_formed g → ∃ g', advance_turn g = (Ok tt, g') ∧ well_formed g'.
Proof.
  intros (Hn & Hl & Ha & Hlc).
  destruct (advance_turn_total g) as (g' & Hg' & Hn' & Hl' & Ha' & Hlc');
    [lia|].
  exists g'. split; [done|]. unfold well_formed.
  rewrite Hn', Hl', Ha', Hlc'.
  pose proof (Z.mod_pos_bound (active_player g + 1) (player_count g)).
  split_and!; try done; lia.
Qed.

Lemma well_formed_collect_remaining_table g :
  well_formed g →
  ∃ g', collect_remaining_table g = (Ok tt, g') ∧ well_formed g'.
Proof.
  intros Hwf. pose proof Hwf as (Hn & Hl & Ha & Hlc).
  destruct (last_capturer g) as [i|] eqn:Hi.
  - destruct (Hlc i eq_refl) as [r Hr].
    pose proof (proj1 (py_index_Some _ _ _) Hr) as [[p Hp]%lookup_lt_is_Some _].
    eexists. split; [by apply (collect_remaining_table_Some g i r p)|].
    unfold well_formed. simpl. rewrite length_insert, Hi. done.
  - exists g. split; [by apply collect_remaining_table_None | done].
Qed.

Lemma well_formed_apply_action player_index a g u g' :
  well_formed g → apply_action player_index a g = (Ok u, g') →
  well_formed g'.
Proof.
  intros (Hn & Hl & Ha & Hlc) ((Hn' & Hl' & Ha') & Hlc')%apply_action_seats.
  unfold well_formed. rewrite Hn', Hl', Ha'. split_and!; try done; try lia.
  intros i Hi. destruct Hlc' as [Heq|[Heq Hs]].
  - apply Hlc. congruence.
  - congruence.
Qed.

Lemma legal_moves_succeeds g player_index r p :
  py_index (length (players g)) player_index = Some r →
  players g !! r = Some p →
  ∃ acts, legal_moves g player_index = Ok acts.
Proof.
  intros Hr Hp. unfold legal_moves.
  erewrite (proj2 (list_getitem_Ok _ _ p)); [by eexists | eauto].
Qed.

(** ** Reachable states *)

Section Reachable.

Variable shuffle : list Card → list Card.

Hypothesis shuffle_perm : ∀ l, shuffle l ≡ₚ l.

Lemma reachable_conserved g : reachable shuffle g → deck_conserved g.
Proof.
  unfold deck_conserved.
  induction 1 as [n g Hn|g pi a g' _ IH Ha|g g' _ IH Ha|g g' _ IH Hc].
  - by eapply new_game_conserved.
  - apply apply_action_cards in Ha. by rewrite Ha.
  - apply advance_turn_cards in Ha. by rewrite Ha.
  - apply collect_remaining_table_cards in Hc. by rewrite Hc.
Qed.

(** C1. Deck conservation: in every reachable state, from the deal to the
    final sweep, the hands, the loose table cards, the builds' cards, the
    captured piles and the stock together are a rearrangement of the
    40-card deck (four suits, values 1 to 10), so each card of the deck
    occurs exactly once and no other card occurs. *)
Theorem deck_conservation g :
  reachable shuffle g →
  all_cards g ≡ₚ full_deck
  ∧ NoDup (all_cards g)
  ∧ length (all_cards g) = 40%nat
  ∧ ∀ card, card ∈ all_cards g ↔ suit card ∈ SUITS ∧ 1 ≤ value card ≤ 10.
Proof.
  intros Hg%reachable_conserved. unfold deck_conserved in Hg.
  split_and!.
  - done.
  - rewrite Hg. apply full_deck_NoDup.
  - by rewrite Hg.
  - intros card. rewrite Hg. apply elem_of_full_deck.
Qed.

(** C2. Legal-move soundness: in every reachable state, every action that
    [legal_moves] returns for a player can be applied at once for that
    player: [apply_action] returns without raising, and the state it
    produces still conserves the deck. *)
Theorem legal_move_soundness g player_index acts a :
  reachable shuffle g →
  legal_moves g player_index = Ok acts → a ∈ acts →
  ∃ g', apply_action player_index a g = (Ok tt, g') ∧ deck_conserved g'.
Proof.
  intros Hg Hl Ha.
  destruct (legal_moves_apply g player_index acts a Hl Ha) as (g' & Hg' & HP).
  exists g'. split; [done|]. unfold deck_conserved.
  rewrite HP. by apply reachable_conserved.
Qed.

Lemma reachable_well_formed g : reachable shuffle g → well_formed g.
Proof.
  induction 1 as [n g Hn|g pi a g' _ IH Ha|g g' _ IH Ha|g g' _ IH Hc].
  - by eapply new_game_conserved.
  - by eapply well_formed_apply_action.
  - destruct (well_formed_advance_turn g IH) as (g1 & Hg1 & ?). congruence.
  - destruct (well_formed_collect_remaining_table g IH) as (g1 & Hg1 & ?).
    congruence.
Qed.

(** No pile of a reachable state holds a card twice. *)
Lemma reachable_pile_NoDup g i p :
  reachable shuffle g → players g !! i = Some p → NoDup (captured p).
Proof.
  intros Hg%reachable_conserved Hp. pose proof full_deck_NoDup as Hnd.
  unfold deck_conserved in Hg. rewrite <- Hg in Hnd. unfold all_cards in Hnd.
  destruct (concat_fmap_insert captured _ _ _ p Hp) as (rest & Hperm & _).
  do 3 apply NoDup_app in Hnd as (_ & _ & Hnd).
  apply NoDup_app in Hnd as (Hnd & _ & _). rewrite Hperm in Hnd.
  by apply NoDup_app in Hnd as (Hnd & _ & _).
Qed.

(** The drivers stay within the reachable states and never see an error:
    one turn of the loop of [simulate_game] returns, whatever [choice]
    picks among the offered moves, and so does the final sweep. *)
Lemma simulate_turn_reachable choice g :
  (∀ moves, moves ≠ [] → choice moves ∈ moves) →
  reachable shuffle g →
  ∃ g', simulate_turn choice g = (Ok tt, g') ∧ reachable shuffle g'.
Proof.
  intros Hchoice Hg. pose proof (reachable_well_formed g Hg) as Hwf.
  pose proof Hwf as (Hn & Hl & Ha & _).
  assert (py_index (length (players g)) (active_player g)
          = Some (Z.to_nat (active_player g))) as Hr.
  { apply py_index_Some. lia. }
  pose proof (proj1 (py_index_Some _ _ _) Hr) as [[p Hp]%lookup_lt_is_Some _].
  destruct (legal_moves_succeeds g _ _ p Hr Hp) as (acts & Hacts).
  unfold simulate_turn.
  rewrite (bind_step _ _ g (active_player g) g) by done.
  rewrite (bind_step _ _ g acts g) by by rewrite Hacts.
  destruct acts as [|a0 acts].
  - destruct (well_formed_advance_turn g Hwf) as (g' & Hg' & _).
    exists g'. split; [done|]. by eapply reach_advance.
  - destruct (legal_moves_apply g _ _ (choice (a0 :: acts)) Hacts)
      as (g1 & Hg1 & _); [by apply Hchoice|].
    rewrite (bind_step _ _ _ _ _ Hg1).
    assert (reachable shuffle g1) as Hr1 by by eapply reach_apply.
    destruct (well_formed_advance_turn g1 (reachable_well_formed g1 Hr1))
      as (g' & Hg' & _).
    exists g'. split; [done|]. by eapply reach_advance.
Qed.

Lemma collect_remaining_table_reachable g :
  reachable shuffle g →
  ∃ g', collect_remaining_table g = (Ok tt, g') ∧ reachable shuffle g'.
Proof.
  intros Hg.
  destruct (well_formed_collect_remaining_table g (reachable_well_formed g Hg))
    as (g' & Hg' & _).
  exists g'. split; [done|]. by eapply reach_collect.
Qed.

End Reachable.

(** ** Captures *)

(** C7. Capture ordering: a [capture] leaves the acting player's pile as it
    was, followed by the hand card and then the captured table card; a
    [capture_build] leaves it as it was, followed by the hand card and then
    the build's cards in the order the build stores them; both set
    [last_capturer] to the acting player's index. *)
Theorem capture_ordering g player_index r p a hi k card :
  py_index (length (players g)) player_index = Some r →
  players g !! r = Some p →
  hand_index a = Some hi →
  py_index (length (hand p)) hi = Some k → hand p !! k = Some card →
  (∀ ti j table_card,
      kind a = "capture" → table_index a = Some ti →
      py_index (length (table g)) ti = Some j →
      table g !! j = Some table_card →
      ∃ g' p', apply_action player_index a g = (Ok tt, g')
        ∧ players g' !! r = Some p'
        ∧ captured p' = captured p ++ [card; table_card]
        ∧ last_capturer g' = Some player_index)
  ∧ (∀ bi j build,
      kind a = "capture_build" → build_index a = Some bi →
      py_index (length (builds g)) bi = Some j →
      builds g !! j = Some build →
      ∃ g' p', apply_action player_index a g = (Ok tt, g')
        ∧ players g' !! r = Some p'
        ∧ captured p' = captured p ++ card :: cards build
        ∧ last_capturer g' = Some player_index).
Proof.
  intros Hr Hp Hhi Hk Hc. split.
  - intros ti j tc Hkind Hti Hj Htc.
    eexists _, _. split; [by eapply (apply_capture g _ r p Hr Hp)|].
    split_and!; [by apply (acting_lookup_insert g r p Hp)|done..].
  - intros bi j b Hkind Hbi Hj Hb.
    eexists _, _. split; [by eapply (apply_capture_build g _ r p Hr Hp)|].
    split_and!; [by apply (acting_lookup_insert g r p Hp)|done..].
Qed.

(** ** Steals *)

(** C5. Steal semantics: a [steal_build] takes the last card off the pile of
    the player named by [steal_from] and the named loose table card, and
    appends the build of those two cards, with the given total, to [builds];
    a pile of one card is left empty; [last_capturer] is left as it was; a
    second [steal_build] from the same pile takes the card that was second to
    last, so two steals in a row take the two most recent cards, the most
    recent first, and these two differ when the pile holds no card twice. *)
Theorem steal_semantics g player_index r a sf o opponent pile stolen ti j table_card :
  py_index (length (players g)) player_index = Some r →
  kind a = "steal_build" → steal_from a = Some sf → table_index a = Some ti →
  py_index (length (players g)) sf = Some o →
  players g !! o = Some opponent → captured opponent = pile ++ [stolen] →
  py_index (length (table g)) ti = Some j → table g !! j = Some table_card →
  ∃ g' opponent',
    apply_action player_index a g = (Ok tt, g')
    ∧ players g' = <[o := opponent']> (players g)
    ∧ hand opponent' = hand opponent ∧ captured opponent' = pile
    ∧ (captured opponent = [stolen] → captured opponent' = [])
    ∧ table g' = delete j (table g)
    ∧ builds g' = builds g ++ [mkBuild [stolen; table_card] (target_total a)]
    ∧ stock g' = stock g
    ∧ last_capturer g' = last_capturer g
    ∧ ∀ a2 ti2 j2 table_card2 pile2 stolen2,
        kind a2 = "steal_build" → steal_from a2 = Some sf →
        table_index a2 = Some ti2 →
        pile = pile2 ++ [stolen2] →
        py_index (length (table g')) ti2 = Some j2 →
        table g' !! j2 = Some table_card2 →
        ∃ g'' opponent'',
          apply_action player_index a2 g' = (Ok tt, g'')
          ∧ players g'' = <[o := opponent'']> (players g)
          ∧ captured opponent'' = pile2
          ∧ captured opponent = captured opponent'' ++ [stolen2; stolen]
          ∧ builds g'' = builds g
                         ++ [mkBuild [stolen; table_card] (target_total a);
                             mkBuild [stolen2; table_card2] (target_total a2)]
          ∧ last_capturer g'' = last_capturer g
          ∧ (NoDup (captured opponent) → stolen2 ≠ stolen).
Proof.
  intros Hr Hkind Hsf Hti Ho Hopp Hpile Hj Htc.
  set (opp1 := mkPlayer (name opponent) (hand opponent) pile).
  set (g1 := mkGame (player_count g) (<[o := opp1]> (players g))
               (delete j (table g))
               (builds g ++ [mkBuild [stolen; table_card] (target_total a)])
               (stock g) (last_capturer g) (active_player g)).
  assert (o < length (players g))%nat as Hlt by by eapply lookup_lt_Some.
  exists g1, opp1. split.
  { by apply (apply_steal_build g _ r Hr a sf o opponent pile stolen ti j). }
  split_and!; try done.
  { rewrite Hpile. by intros [[-> _]|[_ ?]]%app_singleton. }
  intros a2 ti2 j2 tc2 pile2 stolen2 Hkind2 Hsf2 Hti2 Hpile2 Hj2 Htc2.
  assert (py_index (length (players g1)) player_index = Some r) as Hr1.
  { simpl. by rewrite length_insert. }
  assert (py_index (length (players g1)) sf = Some o) as Ho1.
  { simpl. by rewrite length_insert. }
  assert (players g1 !! o = Some opp1) as Hopp1.
  { simpl. by apply list_lookup_insert_eq. }
  eexists _, (mkPlayer (name opponent) (hand opponent) pile2). split.
  { by apply (apply_steal_build g1 _ r Hr1 a2 sf o opp1 pile2 stolen2 ti2 j2 tc2). }
  simpl. split_and!; try done.
  - by rewrite list_insert_insert_eq.
  - by rewrite Hpile, Hpile2, <- (assoc_L (++)).
  - by rewrite <- (assoc_L (++)).
  - rewrite Hpile, Hpile2, <- (assoc_L (++)).
    intros Hnd%NoDup_app. destruct Hnd as (_ & _ & Hnd).
    apply NoDup_cons in Hnd as [Hnin _]. intros ->. apply Hnin. by left.
Qed.

(** C10. [apply_action] does not check whose pile [steal_from] names: when
    the acting player's own pile is not empty and the table index denotes a
    table card, a [steal_build] whose [steal_from] is the acting player's own
    index returns without raising and moves that player's own most recently
    captured card into the new build; [legal_moves] never offers a
    [steal_build] whose [steal_from] is the index it was called with, nor,
    for an index that is not negative, one that denotes the acting player. *)
Theorem self_steal_unchecked g player_index r p a pile top_card ti j table_card :
  py_index (length (players g)) player_index = Some r →
  players g !! r = Some p → captured p = pile ++ [top_card] →
  kind a = "steal_build" → steal_from a = Some player_index →
  table_index a = Some ti →
  py_index (length (table g)) ti = Some j → table g !! j = Some table_card →
  (∃ g', apply_action player_index a g = (Ok tt, g')
     ∧ players g' = <[r := mkPlayer (name p) (hand p) pile]> (players g)
     ∧ table g' = delete j (table g)
     ∧ builds g'
       = builds g ++ [mkBuild [top_card; table_card] (target_total a)])
  ∧ ∀ acts a', legal_moves g player_index = Ok acts → a' ∈ acts →
      steal_from a' ≠ Some player_index
      ∧ (0 ≤ player_index → ∀ sf, steal_from a' = Some sf →
           py_index (length (players g)) sf ≠ Some r).
Proof.
  intros Hr Hp Hpile Hkind Hsf Hti Hj Htc. split.
  - eexists. split; [by eapply (apply_steal_build g _ r Hr)|]. done.
  - intros acts a' (r' & p' & Hr' & Hp' & _ & Hl)%legal_moves_Ok Ha'.
    apply Hl in Ha'. destruct Ha'; simpl; try done.
    split; [congruence|]. intros Hpos sf [= <-].
    rewrite py_index_of_nat by by eapply lookup_lt_Some.
    apply py_index_Some in Hr as [Hlt [->| ->]]; [congruence | lia].
Qed.

(** ** The final sweep, as the callers see it *)

(** C4, as stated, fails: before any capture the sweep returns at once and
    the table keeps its card. *)
Lemma sweep_without_capture_keeps_table :
  last_capturer three_player_opening = None
  ∧ fst (collect_remaining_table three_player_opening) = Ok tt
  ∧ table (snd (collect_remaining_table three_player_opening))
    = [mkCard 3 "H"].
Proof. vm_compute. done. Qed.

(** C4, amended. Sweep attribution: while [last_capturer] is unset,
    [collect_remaining_table] changes nothing (table, builds and piles stay
    as they are); when player P is [last_capturer], P's pile gets the loose
    table cards and then every build's cards appended, no other player
    changes, and table and builds end empty. *)
Theorem sweep_attribution g :
  (last_capturer g = None → collect_remaining_table g = (Ok tt, g))
  ∧ (∀ i r p,
       last_capturer g = Some i →
       py_index (length (players g)) i = Some r → players g !! r = Some p →
       ∃ g', collect_remaining_table g = (Ok tt, g')
         ∧ table g' = [] ∧ builds g' = []
         ∧ players g'
           = <[r := mkPlayer (name p) (hand p)
                      (captured p ++ table g ++ concat (cards <$> builds g))]>
               (players g)
         ∧ stock g' = stock g).
Proof.
  split; [apply collect_remaining_table_None|].
  intros i r p Hl Hr Hp. eexists.
  split; [by apply (collect_remaining_table_Some g i r p)|]. done.
Qed.

(** ** Offered moves and the hand *)

(** C9. For a player that exists, [legal_moves] returns a list that is
    non-empty exactly when that player's hand is non-empty: every hand card
    yields its [throw], and an empty hand yields no action of any kind. *)
Theorem legal_moves_nonempty_iff_hand g player_index r p :
  py_index (length (players g)) player_index = Some r →
  players g !! r = Some p →
  ∃ acts, legal_moves g player_index = Ok acts
    ∧ (acts ≠ [] ↔ hand p ≠ [])
    ∧ (∀ i card, hand p !! i = Some card → throw_action (Z.of_nat i) ∈ acts)
    ∧ (hand p = [] → acts = []).
Proof.
  intros Hr Hp.
  assert (list_getitem (players g) (Some player_index) = Ok p) as Hg.
  { apply list_getitem_Ok. eauto. }
  destruct (legal_moves g player_index) as [acts|e] eqn:Hl; last first.
  { unfold legal_moves in Hl. by rewrite Hg in Hl. }
  pose proof (legal_moves_Ok _ _ _ Hl) as (r' & p' & Hr' & Hp' & Hacts & Hlegal).
  assert (p' = p) as -> by congruence. clear Hr' Hp'.
  assert (∀ i card, hand p !! i = Some card → throw_action (Z.of_nat i) ∈ acts)
    as Hthrow.
  { intros i card Hi. rewrite Hacts. apply elem_of_app. left.
    apply list_elem_of_bind. exists (Z.of_nat i, card).
    split; [by left | apply elem_of_enumerate; eauto]. }
  assert (hand p = [] → acts = []) as Hempty.
  { intros Hh. apply elem_of_nil_inv. intros a Ha%Hlegal.
    destruct Ha; rewrite Hh in *;
      by repeat match goal with
      | H : [] !! _ = Some _ |- _ => rewrite lookup_nil in H
      | H : _ ∈ [] |- _ => apply elem_of_nil in H
      end. }
  exists acts. split_and!; try done. split.
  - intros Hne Hh. by apply Hne, Hempty.
  - destruct (hand p) as [|card h] eqn:Hh; [done|]. intros _ Hnil.
    specialize (Hthrow 0%nat card eq_refl). rewrite Hnil in Hthrow.
    by apply elem_of_nil in Hthrow.
Qed.

(** ** Scoring *)

Lemma count_cards_number_of cond (P : Card → Prop) `{∀ c, Decision (P c)} pile :
  (∀ c, cond c = true ↔ P c) → count_cards cond pile = number_of P pile.
Proof.
  intros Hc. unfold count_cards, number_of.
  induction pile as [|c pile IH]; [done|].
  rewrite !filter_cons.
  destruct (decide (cond c = true)) as [Ht|Hf], (decide (P c)) as [HP|HP];
    try (by apply Hc in Ht); try (by apply Hc in HP).
  - rewrite fmap_cons. cbn [foldr length]. rewrite IH. lia.
  - done.
Qed.

Lemma number_of_card_NoDup (x : Card) pile :
  NoDup pile →
  number_of (λ c, c = x) pile = if bool_decide (x ∈ pile) then 1 else 0.
Proof.
  unfold number_of. induction 1 as [|c pile Hnin Hnd IH]; [done|].
  rewrite filter_cons. destruct (decide (c = x)) as [->|Hne].
  - rewrite bool_decide_true by by left.
    rewrite bool_decide_false in IH by done. simpl. lia.
  - assert (x ∈ c :: pile ↔ x ∈ pile) as Hiff.
    { rewrite elem_of_cons. split; [intros [?|?]; [by subst|done] | by right]. }
    by rewrite IH, (bool_decide_ext _ _ Hiff).
Qed.

Lemma number_of_card_absent (x : Card) pile :
  x ∉ pile → number_of (λ c, c = x) pile = 0.
Proof.
  unfold number_of. induction pile as [|c pile IH]; [done|].
  intros Hnin. rewrite filter_cons_False.
  - apply IH. intros ?. apply Hnin. by right.
  - intros ->. apply Hnin. by left.
Qed.

Lemma is_card_spec v s (c : Card) :
  bool_decide (value c = v) && bool_decide (suit c = s) = true ↔ c = mkCard v s.
Proof.
  rewrite andb_true_iff, !bool_decide_eq_true. destruct c; simpl. split.
  - by intros [-> ->].
  - by intros [= -> ->].
Qed.

Lemma pile_score_unfold pile :
  pile_score pile
  = number_of (λ card, value card = 1) pile
    + number_of (λ c, c = mkCard 2 "S") pile
    + number_of (λ c, c = mkCard 10 "D") pile
    + (if bool_decide (6 ≤ number_of (λ card, suit card = "S") pile) then 2
       else if bool_decide (number_of (λ card, suit card = "S") pile = 5)
            then 1 else 0)
    + (if bool_decide (21 ≤ Z.of_nat (length pile)) then 1 else 0).
Proof.
  unfold pile_score. cbv zeta.
  rewrite (count_cards_number_of (λ card, bool_decide (value card = 1))
             (λ card, value card = 1))
    by (intros; apply bool_decide_eq_true).
  rewrite (count_cards_number_of (λ card, bool_decide (suit card = "S"))
             (λ card, suit card = "S"))
    by (intros; apply bool_decide_eq_true).
  rewrite (count_cards_number_of
             (λ card, bool_decide (value card = 2)
                      && bool_decide (suit card = "S"))
             (λ c, c = mkCard 2 "S"))
    by (intros; apply is_card_spec).
  rewrite (count_cards_number_of
             (λ card, bool_decide (value card = 10)
                      && bool_decide (suit card = "D"))
             (λ c, c = mkCard 10 "D"))
    by (intros; apply is_card_spec).
  done.
Qed.

#[global] Instance pile_score_Permutation : Proper ((≡ₚ) ==> (=)) pile_score.
Proof.
  intros l1 l2 Hl. rewrite !pile_score_unfold. unfold number_of.
  assert (∀ (P : Card → Prop) (HP : ∀ c, Decision (P c)),
            length (filter P l1) = length (filter P l2)) as Hf.
  { intros. apply Permutation_length. by apply filter_Permutation. }
  by rewrite !Hf, (Permutation_length Hl).
Qed.

(** C6. Scoring: a player's score is one point per ace in the captured
    pile, one if the 2 of spades is in it, one if the 10 of diamonds is in
    it, two for six or more spades or one for exactly five, and one for 21
    cards or more (a pile holds no card twice); the pile made of the ace of
    spades, the ace of hearts, the 2 of spades and the 10 of diamonds scores
    4; a pile of 22 cards with no ace, without the 2 of spades and the 10 of
    diamonds, and with 6 spades scores 3. *)
Theorem scoring g i p :
  players g !! i = Some p →
  NoDup (captured p) →
  score g !! i = Some (rule_score (captured p))
  ∧ (captured p ≡ₚ [mkCard 1 "S"; mkCard 1 "H"; mkCard 2 "S"; mkCard 10 "D"] →
     score g !! i = Some 4)
  ∧ (length (captured p) = 22%nat →
     number_of (λ card, value card = 1) (captured p) = 0 →
     mkCard 2 "S" ∉ captured p → mkCard 10 "D" ∉ captured p →
     number_of (λ card, suit card = "S") (captured p) = 6 →
     score g !! i = Some 3).
Proof.
  intros Hp Hnd. unfold score. rewrite list_lookup_fmap, Hp. simpl.
  split_and!.
  - f_equal. rewrite pile_score_unfold. unfold rule_score. cbv zeta.
    rewrite !number_of_card_NoDup by done.
    f_equal. repeat case_bool_decide; try done; lia.
  - intros ->. done.
  - intros Hlen Haces H2 H10 Hspades. f_equal. rewrite pile_score_unfold.
    rewrite Haces, Hspades, Hlen, !number_of_card_absent by done. done.
Qed.

(** ** The opening exchange of a three-player game *)

Lemma seq_split n rs1 i rs2 : seq 0 n = rs1 ++ i :: rs2 → rs1 = seq 0 i.
Proof.
  intros Hs.
  assert (seq 0 n !! length rs1 = Some i) as Hi.
  { rewrite Hs. apply list_lookup_middle. done. }
  apply lookup_seq in Hi as [Hi Hlt]. simpl in Hi. subst i.
  transitivity (take (length rs1) (seq 0 n)).
  - rewrite Hs. by rewrite take_app_length.
  - rewrite take_seq. f_equal. lia.
Qed.

Lemma holds_none_spec g r :
  holds_none g r ↔ ∃ p, players g !! r = Some p ∧ mkCard 3 "H" ∉ hand p.
Proof.
  unfold holds_none. by setoid_rewrite find_three_of_hearts_None.
Qed.

Section OpeningExchange.

Variable shuffle : list Card → list Card.
Hypothesis shuffle_perm : ∀ l, shuffle l ≡ₚ l.

Lemma new_game_three starter g1 :
  table (dealt_three shuffle) = [starter] →
  exchange_scan starter (seq 0 3) (dealt_three shuffle) = (Ok tt, g1) →
  new_game shuffle 3 = Ok (set_stock [] g1).
Proof.
  unfold dealt_three. intros Ht He.
  pose proof (deal_three_blank _ (shuffled_length shuffle shuffle_perm)) as Hd.
  rewrite Hd in Ht, He. cbn [snd table] in Ht. cbn [snd] in He.
  apply new_game_Ok. split; [by right|]. unfold _setup.
  rewrite (bind_step _ _ _ 3 (blank_game 3)) by done.
  rewrite bool_decide_false by done.
  rewrite (bind_step _ _ _ _ _ Hd).
  match type of He with exchange_scan _ _ ?d = _ => set (dealt := d) in * end.
  rewrite (bind_step _ _ dealt tt g1); [done|].
  unfold _resolve_three_of_hearts_exchange.
  rewrite (bind_step _ _ dealt [starter] dealt)
    by (munfold; simpl; by rewrite Ht).
  by rewrite (bind_step _ _ dealt (seq 0 3) dealt).
Qed.

(** C8. Three-player opening exchange: when, after dealing, some player
    holds the three of hearts, the table after setup holds exactly one card,
    that three of hearts, and the first such player in the order of
    [players] holds the card that was the table starter, in a hand of 13
    cards still (the three of hearts swapped for the starter, the other
    players as dealt); when no player holds it, the starter stays on the
    table. *)
Theorem three_player_opening_exchange :
  ∃ g starter,
    new_game shuffle 3 = Ok g
    ∧ table (dealt_three shuffle) = [starter]
    ∧ ((∃ p, p ∈ players (dealt_three shuffle) ∧ mkCard 3 "H" ∈ hand p) →
       table g = [mkCard 3 "H"]
       ∧ ∃ i p p',
           first_holder (dealt_three shuffle) i p
           ∧ players g = <[i := p']> (players (dealt_three shuffle))
           ∧ players g !! i = Some p'
           ∧ starter ∈ hand p'
           ∧ mkCard 3 "H" :: hand p' ≡ₚ starter :: hand p
           ∧ length (hand p) = 13%nat ∧ length (hand p') = 13%nat)
    ∧ ((∀ p, p ∈ players (dealt_three shuffle) → mkCard 3 "H" ∉ hand p) →
       table g = [starter] ∧ players g = players (dealt_three shuffle)).
Proof.
  pose proof (shuffled_length shuffle shuffle_perm) as HD.
  pose proof (deal_three_blank _ HD) as Hd.
  assert (∃ starter, table (dealt_three shuffle) = [starter]) as [starter Ht].
  { unfold dealt_three. rewrite Hd. simpl.
    destruct (drop 39 (shuffle full_deck)) as [|s [|]] eqn:Hdrop;
      apply (f_equal length) in Hdrop; rewrite length_drop in Hdrop;
      simpl in Hdrop; try lia. eauto. }
  assert (length (players (dealt_three shuffle)) = 3%nat) as Hlen.
  { unfold dealt_three. by rewrite Hd. }
  assert (∀ i p, players (dealt_three shuffle) !! i = Some p →
                 length (hand p) = 13%nat) as Hhands.
  { unfold dealt_three. rewrite Hd. simpl.
    intros [|[|[|i]]] p [= <-]; simpl;
      rewrite length_take, ?length_drop; lia. }
  destruct (exchange_scan_spec starter (seq 0 3) (dealt_three shuffle) starter [])
    as [[Hnone He]|(rs1 & i & rs2 & p & card & rest
                    & Hrs & Hnone & Hp & Hfind & Hrest & He)];
    [rewrite <- Hlen; apply player_refs_valid | done | |];
    rewrite Forall_forall in Hnone.
  - (* nobody holds the three of hearts *)
    exists (set_stock [] (dealt_three shuffle)), starter.
    split; [by apply (new_game_three starter)|]. split; [done|]. split; [|done].
    intros (p0 & [i Hp0]%list_elem_of_lookup_1 & Hin).
    assert (i < 3)%nat as Hi by (rewrite <- Hlen; by eapply lookup_lt_Some).
    destruct (Hnone i) as (q & Hq & Hn%find_three_of_hearts_None).
    { apply elem_of_seq. lia. }
    by simplify_eq.
  - (* player [i] is the first to hold it *)
    apply find_three_of_hearts in Hfind as [-> Hcard].
    pose proof (list_remove_Some _ _ _ Hrest) as [Hperm Hlrest].
    apply seq_split in Hrs as ->.
    eexists _, starter. split; [by apply (new_game_three starter)|].
    split; [done|]. simpl. split.
    + intros _. split; [done|].
      exists i, p, (set_hand (rest ++ [starter]) p). split_and!.
      * split_and!; [done..|]. intros j q Hlt Hq.
        destruct (Hnone j) as (q' & Hq' & Hn%find_three_of_hearts_None).
        { apply elem_of_seq. lia. }
        by simplify_eq.
      * done.
      * apply list_lookup_insert_eq. by eapply lookup_lt_Some.
      * apply elem_of_app. right. by left.
      * simpl. rewrite Hperm. solve_Permutation.
      * by eapply Hhands.
      * simpl. rewrite length_app. simpl. erewrite <- (Hhands i p) by done. lia.
    + intros Hno. by destruct (Hno p (list_elem_of_lookup_2 _ _ _ Hp)).
Qed.

End OpeningExchange.

(** ** Rejected actions *)

Lemma bind_raise {A B} (m : M A) (f : A → M B) g e g' :
  m g = (Raise e, g') → (m ≫= f) g = (Raise e, g').
Proof. unfold mbind, M_bind. by intros ->. Qed.

Lemma list_pop_no_position {A} (l : list A) i :
  no_position (length l) i →
  list_pop l i = Raise IndexError ∨ list_pop l i = Raise TypeError.
Proof.
  unfold no_position, list_pop. destruct i as [iz|]; simpl; [|by right].
  intros ->. by left.
Qed.

Lemma players_getitem_no_position i g :
  no_position (length (players g)) i →
  players_getitem i g = (Raise IndexError, g)
  ∨ players_getitem i g = (Raise TypeError, g).
Proof.
  unfold no_position, players_getitem. destruct i as [iz|]; simpl; [|by right].
  intros ->. by left.
Qed.

Lemma hand_pop_no_position r p i g :
  players g !! r = Some p → no_position (length (hand p)) i →
  hand_pop r i g = (Raise IndexError, g) ∨ hand_pop r i g = (Raise TypeError, g).
Proof.
  intros Hp Hi. unfold hand_pop.
  rewrite (bind_step _ _ g p g) by (munfold; by rewrite Hp).
  destruct (list_pop_no_position _ _ Hi) as [He|He]; [left|right];
    apply bind_raise; unfold lift; by rewrite He.
Qed.

(** C3, as stated, fails: a [capture] whose table index is out of range is
    refused only after the hand card has left the hand, and that card is then
    in none of the lists of the state. *)
Lemma capture_refused_after_hand_pop :
  py_index (length (table three_player_opening)) 5 = None
  ∧ fst (apply_action 0 (capture_action 0 5) three_player_opening)
    = Raise IndexError
  ∧ snd (apply_action 0 (capture_action 0 5) three_player_opening)
    ≠ three_player_opening
  ∧ length (all_cards three_player_opening) = 40%nat
  ∧ length (all_cards
              (snd (apply_action 0 (capture_action 0 5) three_player_opening)))
    = 39%nat.
Proof.
  split_and!; by vm_compute.
Qed.

(** An index below zero is not out of range when it counts from the end of
    the list: this capture plays the hand card at 2 (of 13) against the
    table card at 0 (of 1). *)
Lemma negative_indices_count_from_the_end :
  apply_action 0 (capture_action (-11) (-1)) three_player_opening
  = apply_action 0 (capture_action 2 0) three_player_opening
  ∧ fst (apply_action 0 (capture_action 2 0) three_player_opening) = Ok tt.
Proof. by vm_compute. Qed.

(** C3, amended. All-or-nothing holds for the refusals that come before
    anything is taken off a list: when the acting player does not exist, the
    kind is unrecognized, or the first operand of the kind is missing,
    [apply_action] raises one of Python's IndexError, TypeError or ValueError
    (the code has no error of its own) and leaves the state, all hands,
    table, builds, piles, stock and [last_capturer], exactly as it was. *)
Theorem apply_action_refused_at_once g player_index a :
  refused_at_once g player_index a →
  ∃ e, apply_action player_index a g = (Raise e, g)
    ∧ (e = IndexError ∨ e = TypeError
       ∨ e = ValueError ("Unknown action: " +:+ kind a)).
Proof.
  intros Hrefused. unfold apply_action.
  destruct (py_index (length (players g)) player_index) as [r|] eqn:Hr;
    last first.
  { exists IndexError. split; [|by left]. apply bind_raise.
    unfold players_getitem. by rewrite Hr. }
  rewrite (bind_step _ _ g r g) by (unfold players_getitem; by rewrite Hr).
  destruct Hrefused as [Hnone|Hkind|r' p Hr' Hp Hkind Hhi|Hkind Hsf
                       |sf o opp Hkind Hsf Ho Hopp Hpile].
  - congruence.
  - exists (ValueError ("Unknown action: " +:+ kind a)).
    split; [|by right; right].
    unfold known_kinds in Hkind. rewrite !not_elem_of_cons in Hkind.
    destruct Hkind as (? & ? & ? & ? & ? & _).
    by rewrite !bool_decide_false by done.
  - assert (r' = r) as -> by congruence.
    destruct (hand_pop_no_position r p _ g Hp Hhi) as [He|He];
      [exists IndexError | exists TypeError];
      (split; [|by auto]);
      repeat (apply elem_of_cons in Hkind as [->|Hkind]);
      try (by apply elem_of_nil in Hkind);
      rewrite ?bool_decide_false, bool_decide_true by done;
      by apply bind_raise.
  - rewrite Hkind, !bool_decide_false, bool_decide_true by done.
    destruct (players_getitem_no_position _ g Hsf) as [He|He];
      [exists IndexError | exists TypeError];
      (split; [|by auto]); by apply bind_raise.
  - rewrite Hkind, Hsf, !bool_decide_false, bool_decide_true by done.
    rewrite (bind_step _ _ g o g) by (unfold players_getitem; by rewrite Ho).
    exists IndexError. split; [|by left]. apply bind_raise.
    unfold captured_pop.
    rewrite (bind_step _ _ g opp g) by (munfold; by rewrite Hopp).
    apply bind_raise. by rewrite Hpile.
Qed.

(** ** The model's own error is never raised *)

Lemma list_pop_never_dangles {A} (l : list A) i :
  list_pop l i ≠ Raise DanglingRef.
Proof. unfold list_pop. by repeat case_match. Qed.

Lemma captured_extend_Raise r cs g e g' :
  captured_extend r cs g = (Raise e, g') → players g !! r = None.
Proof. munfold. by destruct (players g !! r). Qed.

Lemma apply_action_never_dangles player_index a g e g' :
  apply_action player_index a g = (Raise e, g') → e ≠ DanglingRef.
Proof.
  intros H ->. unfold apply_action in H. munfold.
  repeat case_match; simplify_eq/=;
    repeat match goal with
    | H : list_pop _ _ = Raise DanglingRef |- _ =>
        by apply list_pop_never_dangles in H
    | H : captured_extend _ _ _ = (Ok _, _) |- _ =>
        apply captured_extend_frame in H as (? & -> & ?); simpl in *
    | H : captured_extend _ _ _ = (Raise _, _) |- _ =>
        apply captured_extend_Raise in H; simpl in *
    | H : py_index _ _ = Some _ |- _ => apply py_index_Some in H as [? _]
    | H : _ !! _ = None |- _ => apply lookup_ge_None in H
    end;
    rewrite ?length_insert in *; try lia; by repeat case_match.
Qed.

(** ** The theorems at concrete games *)

Lemma id_shuffle_perm (l : list Card) : id l ≡ₚ l.
Proof. reflexivity. Defined.

Lemma three_player_opening_reachable : reachable id three_player_opening.
Proof. apply (reach_new id 3). vm_compute. reflexivity. Defined.

Lemma two_player_opening_reachable : reachable id two_player_opening.
Proof. apply (reach_new id 2). vm_compute. reflexivity. Defined.

Lemma after_capture_and_throw_reachable :
  reachable id after_capture_and_throw.
Proof.
  apply (reach_apply id after_capture 1 (throw_action 0)).
  - apply (reach_apply id three_player_opening 0 (capture_action 2 0)).
    + apply three_player_opening_reachable.
    + vm_compute. reflexivity.
  - vm_compute. reflexivity.
Defined.

Lemma deck_conservation_witness :
  all_cards after_capture_and_throw ≡ₚ full_deck
  ∧ NoDup (all_cards after_capture_and_throw)
  ∧ length (all_cards after_capture_and_throw) = 40%nat
  ∧ ∀ card, card ∈ all_cards after_capture_and_throw
            ↔ suit card ∈ SUITS ∧ 1 ≤ value card ≤ 10.
Proof.
  apply (deck_conservation id id_shuffle_perm after_capture_and_throw).
  apply after_capture_and_throw_reachable.
Defined.

Lemma legal_move_soundness_witness :
  ∃ g', apply_action 1 (throw_action 3) two_player_opening = (Ok tt, g')
        ∧ deck_conserved g'.
Proof.
  eapply (legal_move_soundness id id_shuffle_perm two_player_opening 1 _
            (throw_action 3)).
  - apply two_player_opening_reachable.
  - vm_compute. reflexivity.
  - apply list_elem_of_In. vm_compute. tauto.
Defined.

Lemma apply_action_refused_at_once_witness :
  ∃ e, apply_action 0 (mkAction "pass" None None None None None)
         three_player_opening = (Raise e, three_player_opening)
    ∧ (e = IndexError ∨ e = TypeError
       ∨ e = ValueError ("Unknown action: " +:+ "pass")).
Proof.
  apply (apply_action_refused_at_once three_player_opening 0
           (mkAction "pass" None None None None None)).
  apply refused_kind. unfold known_kinds. simpl.
  rewrite !not_elem_of_cons. split_and!; try done. apply not_elem_of_nil.
Defined.

Lemma sweep_attribution_witness :
  collect_remaining_table three_player_opening = (Ok tt, three_player_opening)
  ∧ ∃ g', collect_remaining_table after_capture_and_throw = (Ok tt, g')
      ∧ table g' = [] ∧ builds g' = []
      ∧ captured <$> players g'
        = [[mkCard 3 "S"; mkCard 3 "H"; mkCard 4 "H"]; []; []].
Proof.
  split.
  - apply (proj1 (sweep_attribution three_player_opening)). reflexivity.
  - edestruct (proj2 (sweep_attribution after_capture_and_throw) 0 0%nat
                 (player_at after_capture_and_throw 0))
      as (g' & Hg' & Ht & Hb & Hp & _);
      [reflexivity | reflexivity | reflexivity |].
    exists g'. split_and!; [done..|]. rewrite Hp. reflexivity.
Defined.

Lemma steal_semantics_witness :
  ∃ g', apply_action 1 (steal_build_action 0 7 0) after_capture_and_throw
        = (Ok tt, g')
    ∧ captured <$> players g' = [[mkCard 3 "S"]; []; []]
    ∧ table g' = []
    ∧ builds g' = [mkBuild [mkCard 3 "H"; mkCard 4 "H"] (Some 7)]
    ∧ last_capturer g' = Some 0.
Proof.
  edestruct (steal_semantics after_capture_and_throw 1 1
               (steal_build_action 0 7 0) 0 0%nat
               (player_at after_capture_and_throw 0) [mkCard 3 "S"] (mkCard 3 "H") 0 0%nat (mkCard 4 "H"))
    as (g' & opp' & Hg' & Hp & Hh & Hc & _ & Ht & Hb & _ & Hl & _);
    [reflexivity..|].
  exists g'. split_and!; [done| |done..].
  rewrite Hp. destruct opp'. simpl in *. subst. reflexivity.
Defined.

Lemma scoring_witness :
  score scored_piles !! 0%nat = Some 4 ∧ score scored_piles !! 1%nat = Some 3.
Proof.
  split.
  - edestruct (scoring scored_piles 0) as (_ & H & _); [reflexivity| |].
    + apply (bool_decide_unpack _). vm_compute. exact I.
    + apply H. reflexivity.
  - edestruct (scoring scored_piles 1) as (_ & _ & H); [reflexivity| |].
    + apply (bool_decide_unpack _). vm_compute. exact I.
    + apply H; try reflexivity; apply (bool_decide_unpack _); vm_compute;
        exact I.
Defined.

Lemma capture_ordering_witness :
  (∃ g' p', apply_action 0 (capture_action 2 0) three_player_opening
            = (Ok tt, g')
      ∧ players g' !! 0%nat = Some p'
      ∧ captured p' = [mkCard 3 "S"; mkCard 3 "H"]
      ∧ last_capturer g' = Some 0)
  ∧ (∃ g' p', apply_action 0 (capture_build_action 2 0) after_build
              = (Ok tt, g')
      ∧ players g' !! 0%nat = Some p'
      ∧ captured p' = [mkCard 4 "S"; mkCard 1 "S"; mkCard 3 "H"]
      ∧ last_capturer g' = Some 0).
Proof.
  split.
  - edestruct (capture_ordering three_player_opening 0 0%nat
                 (player_at three_player_opening 0) (capture_action 2 0) 2 2%nat (mkCard 3 "S"))
      as [H _]; [reflexivity..|].
    apply (H 0 0%nat (mkCard 3 "H")); reflexivity.
  - edestruct (capture_ordering after_build 0 0%nat
                 (player_at after_build 0) (capture_build_action 2 0) 2 2%nat (mkCard 4 "S"))
      as [_ H]; [reflexivity..|].
    apply (H 0 0%nat (mkBuild [mkCard 1 "S"; mkCard 3 "H"] (Some 4)));
      reflexivity.
Defined.

Lemma three_player_opening_exchange_witness :
  ∃ g, new_game id 3 = Ok g
    ∧ table (dealt_three id) = [mkCard 10 "C"]
    ∧ table g = [mkCard 3 "H"]
    ∧ ∃ p', players g !! 0%nat = Some p'
        ∧ mkCard 10 "C" ∈ hand p' ∧ length (hand p') = 13%nat.
Proof.
  destruct (three_player_opening_exchange id id_shuffle_perm)
    as (g & starter & Hg & Hstarter & Hsome & _).
  assert (starter = mkCard 10 "C") as -> by (vm_compute in Hstarter; congruence).
  destruct Hsome as (Ht & i & p & p' & (Hp & Hin & Hmin) & _ & Hp' & Hs & _ & _ & Hl).
  { exists (player_at (dealt_three id) 0). split.
    - apply list_elem_of_In. vm_compute. tauto.
    - apply list_elem_of_In. vm_compute. tauto. }
  exists g. split_and!; [done..|].
  destruct i as [|i]; [by exists p'|].
  destruct (Hmin 0%nat (player_at (dealt_three id) 0)); [lia | reflexivity |].
  apply list_elem_of_In. vm_compute. tauto.
Defined.

Lemma legal_moves_nonempty_iff_hand_witness :
  ∃ acts, legal_moves three_player_opening 0 = Ok acts
    ∧ (acts ≠ [] ↔ hand <$> players three_player_opening !! 0%nat ≠ Some [])
    ∧ throw_action 12 ∈ acts.
Proof.
  edestruct (legal_moves_nonempty_iff_hand three_player_opening 0 0%nat
               (player_at three_player_opening 0))
    as (acts & Hacts & Hiff & Hthrow & _); [reflexivity..|].
  exists acts. split_and!; [done| |].
  - rewrite Hiff. split; intros H ?; by apply H.
  - apply (Hthrow 12%nat (mkCard 10 "C")). reflexivity.
Defined.

Lemma self_steal_unchecked_witness :
  ∃ g', apply_action 0 (steal_build_action 0 7 0) after_capture_and_throw
        = (Ok tt, g')
    ∧ captured <$> players g' = [[mkCard 3 "S"]; []; []]
    ∧ builds g' = [mkBuild [mkCard 3 "H"; mkCard 4 "H"] (Some 7)].
Proof.
  edestruct (self_steal_unchecked after_capture_and_throw 0 0%nat
               (player_at after_capture_and_throw 0)
               (steal_build_action 0 7 0) [mkCard 3 "S"] (mkCard 3 "H")
               0 0%nat (mkCard 4 "H"))
    as [(g' & Hg' & Hp & _ & Hb) _]; [reflexivity..|].
  exists g'. split_and!; [done| |done]. rewrite Hp. reflexivity.
Defined.
